(** * Breach & Clear: the simulation core of [src/app/index.tsx]

    A shallow embedding of the game engine held in [gsRef] and driven by
    [gameLoop], [startGame] and [handleArenaTap].

    Numbers.  Every quantity of the source is a JavaScript [number].  The
    counters ([energy], [health], [score], [wave], [blockIdCounter]) only
    ever hold integers and are modelled in [Z]; timestamps, positions and
    velocities are modelled as mathematical reals ([R]), so [Math.cos],
    [Math.sin], [Math.abs], [Math.min], [Math.max] and [Math.floor] are the
    real functions [cos], [sin], [Rabs], [Rmin], [Rmax] and [Zfloor].
    Rounding of IEEE doubles is not part of this reading; where the program
    rounds in a way that matters (the velocity computed from the speed,
    the speed raised by [SPEED_STEP]) the module [Binary64] reads the same
    lines in binary64.

    Effects.  [gsRef.current] and [lastFrameRef.current] are threaded as an
    explicit [World]; [Math.random()] reads an explicit stream [rand] at a
    call counter kept in the world; the haptic calls are appended to a log.
    React render state ([syncUI], [setPhase], the flash and shake
    animations) only copies values out of [gsRef] and is left out. *)

From Stdlib Require Import Reals Lra Lia ZArith List Bool String.
From Stdlib Require Floats.PrimFloat.
Import ListNotations.

Open Scope R_scope.

(** ** Decidable comparisons on reals, as the booleans of the source *)

Definition Rleb (a b : R) : bool := if Rle_dec a b then true else false.
Definition Rltb (a b : R) : bool := if Rlt_dec a b then true else false.
Definition Reqb (a b : R) : bool := if Req_dec_T a b then true else false.

(** [Math.atan2(y, x)], by the quadrant rule of ECMAScript. *)
Definition atan2 (y x : R) : R :=
  if Rltb 0 x then atan (y / x)
  else if Rltb x 0 then
    (if Rleb 0 y then atan (y / x) + PI else atan (y / x) - PI)
  else if Rltb 0 y then PI / 2
  else if Rltb y 0 then - (PI / 2)
  else 0.

(** ** Data model *)

Inductive GamePhase : Set := IDLE | PLAYING | DEAD.

Definition GamePhase_eqb (p q : GamePhase) : bool :=
  match p, q with
  | IDLE, IDLE | PLAYING, PLAYING | DEAD, DEAD => true
  | _, _ => false
  end.

Record Block : Type := mkBlock {
  blk_id : Z;
  blk_x : R;
  blk_y : R;
  blk_w : R;
  blk_h : R;
  blk_color : string
}.

Record Ball : Type := mkBall {
  ball_x : R;
  ball_y : R;
  ball_vx : R;
  ball_vy : R;
  ball_color : string;
  ball_radius : R
}.

Record GameState : Type := mkGameState {
  balls : list Ball;
  blocks : list Block;
  energy : Z;
  health : Z;
  score : Z;
  wave : Z;
  speed : R;
  lastEnergyRegen : R;
  lastEscalation : R;
  blockIdCounter : Z;
  phase : GamePhase
}.

(** Haptic feedback, the only output besides the state. *)
Inductive NotificationFeedbackType : Set := NSuccess | NWarning | NError.
Inductive ImpactFeedbackStyle : Set := ILight | IMedium | IHeavy.
Inductive Haptic : Set :=
| hapticNotify (t : NotificationFeedbackType)
| hapticImpact (s : ImpactFeedbackStyle).

(** [gs] is [gsRef.current], [lastFrame] is [lastFrameRef.current],
    [rngCalls] counts the calls of [Math.random()] made so far and
    [haptics] lists the haptic calls made so far, most recent first. *)
Record World : Type := mkWorld {
  gs : GameState;
  lastFrame : R;
  rngCalls : nat;
  haptics : list Haptic
}.

(** ** Constants *)

Definition BLOCK_COLORS : list string :=
  ["#00ffcc"; "#00e5ff"; "#18ffff"; "#64ffda"; "#1de9b6"]%string.
Definition BALL_COLORS : list string :=
  ["#ff1744"; "#ff9100"; "#d500f9"]%string.

Definition BALL_RADIUS : R := 13.
Definition BLOCK_H : R := 36.
Definition MAX_ENERGY : Z := 8.
Definition MAX_HEALTH : Z := 5.
Definition ENERGY_REGEN_MS : R := 900.
Definition ESCALATION_MS : R := 15000.
Definition INITIAL_SPEED : R := 4.5.
Definition SPEED_STEP : R := 1.2.
Definition COLS : R := 8.

(** ** Field updates of the mutable records *)

Definition set_balls (v : list Ball) (g : GameState) : GameState :=
  mkGameState v (blocks g) (energy g) (health g) (score g) (wave g) (speed g)
    (lastEnergyRegen g) (lastEscalation g) (blockIdCounter g) (phase g).
Definition set_blocks (v : list Block) (g : GameState) : GameState :=
  mkGameState (balls g) v (energy g) (health g) (score g) (wave g) (speed g)
    (lastEnergyRegen g) (lastEscalation g) (blockIdCounter g) (phase g).
Definition set_energy (v : Z) (g : GameState) : GameState :=
  mkGameState (balls g) (blocks g) v (health g) (score g) (wave g) (speed g)
    (lastEnergyRegen g) (lastEscalation g) (blockIdCounter g) (phase g).
Definition set_health (v : Z) (g : GameState) : GameState :=
  mkGameState (balls g) (blocks g) (energy g) v (score g) (wave g) (speed g)
    (lastEnergyRegen g) (lastEscalation g) (blockIdCounter g) (phase g).
Definition set_score (v : Z) (g : GameState) : GameState :=
  mkGameState (balls g) (blocks g) (energy g) (health g) v (wave g) (speed g)
    (lastEnergyRegen g) (lastEscalation g) (blockIdCounter g) (phase g).
Definition set_wave (v : Z) (g : GameState) : GameState :=
  mkGameState (balls g) (blocks g) (energy g) (health g) (score g) v (speed g)
    (lastEnergyRegen g) (lastEscalation g) (blockIdCounter g) (phase g).
Definition set_speed (v : R) (g : GameState) : GameState :=
  mkGameState (balls g) (blocks g) (energy g) (health g) (score g) (wave g) v
    (lastEnergyRegen g) (lastEscalation g) (blockIdCounter g) (phase g).
Definition set_lastEnergyRegen (v : R) (g : GameState) : GameState :=
  mkGameState (balls g) (blocks g) (energy g) (health g) (score g) (wave g)
    (speed g) v (lastEscalation g) (blockIdCounter g) (phase g).
Definition set_lastEscalation (v : R) (g : GameState) : GameState :=
  mkGameState (balls g) (blocks g) (energy g) (health g) (score g) (wave g)
    (speed g) (lastEnergyRegen g) v (blockIdCounter g) (phase g).
Definition set_blockIdCounter (v : Z) (g : GameState) : GameState :=
  mkGameState (balls g) (blocks g) (energy g) (health g) (score g) (wave g)
    (speed g) (lastEnergyRegen g) (lastEscalation g) v (phase g).
Definition set_phase (v : GamePhase) (g : GameState) : GameState :=
  mkGameState (balls g) (blocks g) (energy g) (health g) (score g) (wave g)
    (speed g) (lastEnergyRegen g) (lastEscalation g) (blockIdCounter g) v.

Definition set_gs (v : GameState) (w : World) : World :=
  mkWorld v (lastFrame w) (rngCalls w) (haptics w).
Definition set_lastFrame (v : R) (w : World) : World :=
  mkWorld (gs w) v (rngCalls w) (haptics w).
Definition set_rngCalls (v : nat) (w : World) : World :=
  mkWorld (gs w) (lastFrame w) v (haptics w).
Definition emit (h : Haptic) (w : World) : World :=
  mkWorld (gs w) (lastFrame w) (rngCalls w) (h :: haptics w).

Definition set_pos (px py : R) (b : Ball) : Ball :=
  mkBall px py (ball_vx b) (ball_vy b) (ball_color b) (ball_radius b).
Definition set_vel (pvx pvy : R) (b : Ball) : Ball :=
  mkBall (ball_x b) (ball_y b) pvx pvy (ball_color b) (ball_radius b).

(** The state [gsRef] is created with. *)
Definition initialGameState : GameState :=
  mkGameState [] [] MAX_ENERGY MAX_HEALTH 0 1 INITIAL_SPEED 0 0 0 IDLE.

Definition initialWorld : World := mkWorld initialGameState 0 0 [].

Section Engine.

(** The arena is fixed by the screen; [rand i] is the value returned by the
    [i]-th call of [Math.random()]. *)
Variables arenaW arenaH : R.
Variable rand : nat -> R.

Definition cellW : R := arenaW / COLS.

(** The launch angle drawn by [makeBall] and by the respawn, in radians. *)
Definition launchAngle (u : R) : R := (u * (150 - 30) + 30) * (PI / 180).

Definition randomSign (u : R) : R := if Rltb 0.5 u then 1 else -1.

(** [randomBlockColor]: one draw, an index into [BLOCK_COLORS]. *)
Definition randomBlockColor (u : R) : string :=
  nth (Z.to_nat (Zfloor (u * 5))) BLOCK_COLORS EmptyString.

(** [makeBall(arenaW, speed, colorIdx)], reading draws [n .. n+3] in the
    order the source evaluates them: angle, sign of [vx], [x], [y].  The
    products with [cos] and [sin] are exact here and rounded in the
    program ([Binary64.launchVelocity64]). *)
Definition makeBall (spd : R) (colorIdx : nat) (n : nat) : Ball :=
  let angle := launchAngle (rand n) in
  let vx := cos angle * spd * randomSign (rand (n + 1)) in
  let vy := sin angle * spd in
  mkBall (BALL_RADIUS + rand (n + 2) * (arenaW - BALL_RADIUS * 2))
         (BALL_RADIUS + 20 + rand (n + 3) * 60)
         vx
         (Rabs vy)
         (nth (colorIdx mod 3) BALL_COLORS EmptyString)
         BALL_RADIUS.

(** [handleCoreDamage]. *)
Definition handleCoreDamage (w : World) : World :=
  let g := gs w in
  let g1 := set_health (Z.max 0 (health g - 1)) g in
  let w1 := emit (hapticNotify NError) (set_gs g1 w) in
  if (health g1 <=? 0)%Z then set_gs (set_phase DEAD g1) w1 else w1.

(** *** The clock: [dt] and [factor] of one frame *)

Definition frameStart (lf timestamp : R) : R :=
  if Reqb lf 0 then timestamp else lf.
Definition frameDt (lf timestamp : R) : R :=
  Rmin (timestamp - frameStart lf timestamp) 33.
Definition frameFactor (lf timestamp : R) : R :=
  frameDt lf timestamp / 16.67.

(** *** Energy regeneration *)

Definition regenStep (timestamp : R) (g : GameState) : GameState :=
  if Rleb ENERGY_REGEN_MS (timestamp - lastEnergyRegen g) then
    let g1 := if (energy g <? MAX_ENERGY)%Z
              then set_energy (Z.min MAX_ENERGY (energy g + 1)) g else g in
    set_lastEnergyRegen timestamp g1
  else g.

(** *** Escalation *)

(** The body of the [for (const ball of gs.balls)] of the speed-up branch;
    [atan2], [cos] and [sin] are exact here and rounded in the program. *)
Definition renormalize (spd : R) (b : Ball) : Ball :=
  let angle := atan2 (ball_vy b) (ball_vx b) in
  set_vel (cos angle * spd) (sin angle * spd) b.

Definition escalationDue (timestamp : R) (g : GameState) : bool :=
  Rleb ESCALATION_MS (timestamp - lastEscalation g).

(** The escalation block of [gameLoop].  [speed g1 + SPEED_STEP] is the
    exact sum; the program rounds it ([Binary64.speedUp64]). *)
Definition escalationStep (timestamp : R) (w : World) : World :=
  let g := gs w in
  if escalationDue timestamp g then
    let g1 := set_wave (wave g + 1) g in
    let w2 :=
      if (List.length (balls g1) <? 3)%nat then
        set_rngCalls (rngCalls w + 4)
          (set_gs (set_balls (balls g1 ++
                     [makeBall (speed g1) (List.length (balls g1)) (rngCalls w)])
                     g1) w)
      else
        let g2 := set_speed (speed g1 + SPEED_STEP) g1 in
        set_gs (set_balls (map (renormalize (speed g2)) (balls g2)) g2) w in
    emit (hapticNotify NSuccess)
      (set_gs (set_lastEscalation timestamp (gs w2)) w2)
  else w.

(** *** One projectile: integration, walls, breach, obstacles *)

Definition integrate (factor : R) (b : Ball) : Ball :=
  set_pos (ball_x b + ball_vx b * factor) (ball_y b + ball_vy b * factor) b.

Definition bounceWalls (b : Ball) : Ball :=
  let b1 := if Rleb (ball_x b - ball_radius b) 0
            then set_vel (Rabs (ball_vx b)) (ball_vy b)
                   (set_pos (ball_radius b) (ball_y b) b)
            else b in
  let b2 := if Rleb arenaW (ball_x b1 + ball_radius b1)
            then set_vel (- Rabs (ball_vx b1)) (ball_vy b1)
                   (set_pos (arenaW - ball_radius b1) (ball_y b1) b1)
            else b1 in
  if Rleb (ball_y b2 - ball_radius b2) 0
  then set_vel (ball_vx b2) (Rabs (ball_vy b2))
         (set_pos (ball_x b2) (ball_radius b2) b2)
  else b2.

Definition breaches (b : Ball) : bool :=
  Rleb arenaH (ball_y b + ball_radius b).

(** The respawn after a breach, reading draws [n .. n+3] in source order:
    [x], [y], angle, sign of [vx].  The products with [cos] and [sin] are
    exact here and rounded in the program ([Binary64.launchVelocity64]). *)
Definition respawn (spd : R) (n : nat) (b : Ball) : Ball :=
  let px := ball_radius b + rand n * (arenaW - ball_radius b * 2) in
  let py := ball_radius b + 20 + rand (n + 1) * 40 in
  let angle := launchAngle (rand (n + 2)) in
  set_vel (cos angle * spd * randomSign (rand (n + 3)))
          (Rabs (sin angle * spd))
          (set_pos px py b).

Definition nearX (b : Ball) (blk : Block) : R :=
  Rmax (blk_x blk) (Rmin (ball_x b) (blk_x blk + blk_w blk)).
Definition nearY (b : Ball) (blk : Block) : R :=
  Rmax (blk_y blk) (Rmin (ball_y b) (blk_y blk + blk_h blk)).

(** Squared distance from the centre of the ball to the nearest point of
    the rectangle. *)
Definition dist2 (b : Ball) (blk : Block) : R :=
  let dx := ball_x b - nearX b blk in
  let dy := ball_y b - nearY b blk in
  dx * dx + dy * dy.

Definition hits (b : Ball) (blk : Block) : bool :=
  Rltb (dist2 b blk) (ball_radius b * ball_radius b).

(** The reflection applied inside the [if] of the obstacle loop. *)
Definition reflect (b : Ball) (blk : Block) : Ball :=
  let dx := ball_x b - nearX b blk in
  let dy := ball_y b - nearY b blk in
  let overlapX := ball_radius b - Rabs dx in
  let overlapY := ball_radius b - Rabs dy in
  if Rltb overlapX overlapY then
    let vx' := - ball_vx b in
    set_pos (ball_x b + (if Rltb 0 vx' then overlapX else - overlapX))
            (ball_y b)
            (set_vel vx' (ball_vy b) b)
  else
    let vy' := - ball_vy b in
    set_pos (ball_x b)
            (ball_y b + (if Rltb 0 vy' then overlapY else - overlapY))
            (set_vel (ball_vx b) vy' b).

(** The inner [for] over [gs.blocks] from index [i]: the index of the first
    block hit ([hitBlock]) and the reflected ball, or [None] for [-1]. *)
Fixpoint findHit (b : Ball) (bls : list Block) (i : nat)
  : option (nat * Ball) :=
  match bls with
  | [] => None
  | blk :: rest =>
      if hits b blk then Some (i, reflect b blk)
      else findHit b rest (S i)
  end.

(** [arr.splice(i, 1)]. *)
Definition splice1 {A : Type} (i : nat) (l : list A) : list A :=
  firstn i l ++ skipn (S i) l.

(** The body of the [for] over [gs.balls] for the ball [b = gs.balls[bi]].
    The body writes [gs.balls[bi]] only, so the ball is returned and the
    [balls] field of the world is left to the loop. *)
Definition stepBall (factor : R) (b : Ball) (w : World) : Ball * World :=
  let b1 := bounceWalls (integrate factor b) in
  if breaches b1 then
    let w1 := handleCoreDamage w in
    (respawn (speed (gs w1)) (rngCalls w1) b1,
     set_rngCalls (rngCalls w1 + 4) w1)
  else
    match findHit b1 (blocks (gs w)) 0 with
    | Some (hitBlock, b2) =>
        let g := gs w in
        let g1 := set_blocks (splice1 hitBlock (blocks g)) g in
        let g2 := set_score (score g1 + 10) g1 in
        (b2, emit (hapticImpact IHeavy) (set_gs g2 w))
    | None => (b1, w)
    end.

Fixpoint forBalls (factor : R) (bs : list Ball) (w : World)
  : list Ball * World :=
  match bs with
  | [] => ([], w)
  | b :: rest =>
      let (b', w1) := stepBall factor b w in
      let (rest', w2) := forBalls factor rest w1 in
      (b' :: rest', w2)
  end.

(** [gameLoop(timestamp)]. *)
Definition gameLoop (timestamp : R) (w : World) : World :=
  if negb (GamePhase_eqb (phase (gs w)) PLAYING) then w
  else
    let factor := frameFactor (lastFrame w) timestamp in
    let w1 := set_lastFrame timestamp w in
    let w2 := set_gs (regenStep timestamp (gs w1)) w1 in
    let w3 := escalationStep timestamp w2 in
    let (bs, w4) := forBalls factor (balls (gs w3)) w3 in
    set_gs (set_balls bs (gs w4)) w4.

(** [startGame()]. *)
Definition startGame (w : World) : World :=
  let g :=
    mkGameState [makeBall INITIAL_SPEED 0 (rngCalls w)] [] MAX_ENERGY
      MAX_HEALTH 0 1 INITIAL_SPEED 0 0 0 PLAYING in
  mkWorld g 0 (rngCalls w + 4) (haptics w).

(** [handleArenaTap(evt)] with [tapX = locationX], [tapY = locationY]. *)
Definition snapX (tapX : R) : R := IZR (Zfloor (tapX / cellW)) * cellW.
Definition snapY (tapY : R) : R := IZR (Zfloor (tapY / BLOCK_H)) * BLOCK_H.

Definition occupiedAt (bx by_ : R) (bls : list Block) : bool :=
  existsb (fun b => Rltb (Rabs (blk_x b - bx)) 1
                    && Rltb (Rabs (blk_y b - by_)) 1) bls.

Definition handleArenaTap (tapX tapY : R) (w : World) : World :=
  let g := gs w in
  if negb (GamePhase_eqb (phase g) PLAYING) then w
  else if (energy g <=? 0)%Z then emit (hapticNotify NWarning) w
  else
    let bx := snapX tapX in
    let by_ := snapY tapY in
    if occupiedAt bx by_ (blocks g) then w
    else
      let g1 := set_energy (energy g - 1) g in
      let g2 := set_blockIdCounter (blockIdCounter g1 + 1) g1 in
      let blk := mkBlock (blockIdCounter g2) bx by_ cellW BLOCK_H
                   (randomBlockColor (rand (rngCalls w))) in
      let g3 := set_blocks (blocks g2 ++ [blk]) g2 in
      emit (hapticImpact ILight)
        (set_rngCalls (rngCalls w + 1) (set_gs g3 w)).

(** States the running program can be in. *)
Inductive reachable : World -> Prop :=
| reach_init : reachable initialWorld
| reach_start w : reachable w -> reachable (startGame w)
| reach_tick w t : reachable w -> reachable (gameLoop t w)
| reach_tap w tx ty : reachable w -> reachable (handleArenaTap tx ty w).

(** ** Predicates the statements are written with *)

(** The world when the loop over the balls starts. *)
Definition beforeBalls (t : R) (w : World) : World :=
  escalationStep t (set_gs (regenStep t (gs w)) (set_lastFrame t w)).

(** The world when, in the tick at [t], the ball that follows the balls
    [pre] in the list gets its turn, and the step of that ball [b]. *)
Definition atTurn (t : R) (w : World) (pre : list Ball) : World :=
  snd (forBalls (frameFactor (lastFrame w) t) pre (beforeBalls t w)).

Definition turnOf (t : R) (w : World) (pre : list Ball) (b : Ball)
  : Ball * World :=
  stepBall (frameFactor (lastFrame w) t) b (atTurn t w pre).

(** The fields no ball step writes. *)
Definition sameClockAndEconomy (w w' : World) : Prop :=
  energy (gs w') = energy (gs w) /\
  wave (gs w') = wave (gs w) /\
  speed (gs w') = speed (gs w) /\
  lastEnergyRegen (gs w') = lastEnergyRegen (gs w) /\
  lastEscalation (gs w') = lastEscalation (gs w) /\
  blockIdCounter (gs w') = blockIdCounter (gs w) /\
  balls (gs w') = balls (gs w) /\
  lastFrame w' = lastFrame w.

(** The resource bounds of the economy. *)
Definition resourcesInRange (w : World) : Prop :=
  (0 <= energy (gs w) <= MAX_ENERGY)%Z /\
  (0 <= health (gs w) <= MAX_HEALTH)%Z.




(** The three grounds on which a tap is rejected. *)
Definition tapRejected (tapX tapY : R) (w : World) : Prop :=
  phase (gs w) <> PLAYING \/
  (energy (gs w) <= 0)%Z \/
  exists blk : Block,
    In blk (blocks (gs w)) /\
    Rabs (blk_x blk - snapX tapX) < 1 /\ Rabs (blk_y blk - snapY tapY) < 1.

(** Either some health is left, or the session is over. *)
Definition aliveOrDead (w : World) : Prop :=
  (0 < health (gs w))%Z \/ phase (gs w) = DEAD.

(** ** Predicates and display code for the further properties *)

(** [R] holds between every element and every later one. *)
Fixpoint pairwise {A : Type} (R : A -> A -> Prop) (l : list A) : Prop :=
  match l with
  | [] => True
  | a :: rest => Forall (R a) rest /\ pairwise R rest
  end.

(** Two blocks the occupancy test of [handleArenaTap] takes for one cell. *)
Definition sameCell (a b : Block) : Prop :=
  Rabs (blk_x a - blk_x b) < 1 /\ Rabs (blk_y a - blk_y b) < 1.

(** Block identifiers: increasing along the list, positive, at most the
    counter. *)
Definition idsInOrder (g : GameState) : Prop :=
  (0 <= blockIdCounter g)%Z /\
  Forall (fun a => (0 < blk_id a <= blockIdCounter g)%Z) (blocks g) /\
  pairwise (fun a b => (blk_id a < blk_id b)%Z) (blocks g).

(** Game over exactly at zero health; before the first start the state is
    the one [gsRef] was created with. *)
Definition phaseMatchesHealth (g : GameState) : Prop :=
  match phase g with
  | IDLE => g = initialGameState
  | PLAYING => (0 < health g)%Z
  | DEAD => health g = 0%Z
  end.

(** A session that is running with health left, or over with none. *)
Definition playingOrOver (w : World) : Prop :=
  (phase (gs w) = PLAYING /\ (0 < health (gs w))%Z) \/
  (phase (gs w) = DEAD /\ health (gs w) = 0%Z).

(** How waves, balls and speed hang together once a session has started:
    the wave runs ahead of the number of balls only through speed-ups. *)
Definition escalationLedger (g : GameState) : Prop :=
  (1 <= List.length (balls g) <= 3)%nat /\
  (Z.of_nat (List.length (balls g)) <= wave g)%Z /\
  ((List.length (balls g) < 3)%nat ->
   wave g = Z.of_nat (List.length (balls g))) /\
  (wave g = Z.of_nat (List.length (balls g)) -> speed g = INITIAL_SPEED) /\
  ((Z.of_nat (List.length (balls g)) < wave g)%Z -> INITIAL_SPEED < speed g).

(** A block that fills one cell of the grid. *)
Definition onGrid (blk : Block) : Prop :=
  exists col row : Z,
    blk_x blk = IZR col * cellW /\ blk_y blk = IZR row * BLOCK_H /\
    blk_w blk = cellW /\ blk_h blk = BLOCK_H.

(** [syncUI]: the values copied into the React state. *)
Record UIState : Type := mkUIState {
  renderBalls : list Ball;
  renderBlocks : list Block;
  ui_energy : Z;
  ui_health : Z;
  ui_score : Z;
  ui_wave : Z;
  lowEnergy : bool
}.

Definition syncUI (g : GameState) : UIState :=
  mkUIState (balls g) (blocks g) (energy g) (health g) (score g) (wave g)
    (energy g <? 2)%Z.

(** The part of a pip's style that depends on its index. *)
Record Pip : Type := mkPip {
  pip_key : nat;
  pip_backgroundColor : string;
  pip_shadowColor : string;
  pip_shadowOpacity : R;
  pip_shadowRadius : R
}.

Definition COLORS_energyActive : string := "#00ff88".
Definition COLORS_energyInactive : string := "#0a2a18".
Definition COLORS_healthActive : string := "#ff2255".
Definition COLORS_healthInactive : string := "#2a050f".

(** [renderPips(count, max, activeColor, inactiveColor)]: the loop runs for
    i = 0 .. max - 1. *)
Definition renderPips (count mx : Z) (activeColor inactiveColor : string)
  : list Pip :=
  map (fun i : nat =>
         let on := (Z.of_nat i <? count)%Z in
         mkPip i
           (if on then activeColor else inactiveColor)
           (if on then activeColor else "transparent")
           (if on then 0.8 else 0)
           (if on then 6 else 0))
      (seq 0 (Z.to_nat mx)).

(** [renderHealthSegments()], reading the [health] of the React state. *)
Definition renderHealthSegments (ui : UIState) : list Pip :=
  map (fun i : nat =>
         let on := (Z.of_nat i <? ui_health ui)%Z in
         mkPip i
           (if on then COLORS_healthActive else COLORS_healthInactive)
           (if on then COLORS_healthActive else "transparent")
           (if on then 0.9 else 0)
           (if on then 8 else 0))
      (seq 0 (Z.to_nat MAX_HEALTH)).

(** A pip drawn in the active colour. *)
Definition lit (activeColor : string) (p : Pip) : bool :=
  String.eqb (pip_backgroundColor p) activeColor.

(** ** Reading the comparisons *)

Lemma Rleb_true (a b : R) : Rleb a b = true <-> a <= b.
Proof. unfold Rleb; destruct (Rle_dec a b); split; intros; try easy. Qed.

Lemma Rleb_false (a b : R) : Rleb a b = false <-> b < a.
Proof.
  unfold Rleb; destruct (Rle_dec a b); split; intros; try easy; lra.
Qed.

Lemma Rltb_true (a b : R) : Rltb a b = true <-> a < b.
Proof. unfold Rltb; destruct (Rlt_dec a b); split; intros; try easy. Qed.

Lemma Rltb_false (a b : R) : Rltb a b = false <-> b <= a.
Proof.
  unfold Rltb; destruct (Rlt_dec a b); split; intros; try easy; lra.
Qed.

Lemma Reqb_true (a b : R) : Reqb a b = true <-> a = b.
Proof. unfold Reqb; destruct (Req_dec_T a b); split; intros; try easy. Qed.

Lemma Reqb_false (a b : R) : Reqb a b = false <-> a <> b.
Proof. unfold Reqb; destruct (Req_dec_T a b); split; intros; try easy. Qed.

Lemma GamePhase_eqb_eq (p q : GamePhase) : GamePhase_eqb p q = true <-> p = q.
Proof. destruct p, q; simpl; split; intros; try easy. Qed.

Lemma not_playing_iff (p : GamePhase) :
  negb (GamePhase_eqb p PLAYING) = true <-> p <> PLAYING.
Proof. destruct p; simpl; split; intros; try easy. Qed.

(** ** What one ball step and the ball loop leave alone *)

Lemma handleCoreDamage_health (w : World) :
  health (gs (handleCoreDamage w)) = Z.max 0 (health (gs w) - 1).
Proof.
  unfold handleCoreDamage; cbn.
  destruct (Z.max 0 (health (gs w) - 1) <=? 0)%Z; reflexivity.
Qed.

Lemma handleCoreDamage_phase (w : World) :
  phase (gs (handleCoreDamage w)) =
  if (Z.max 0 (health (gs w) - 1) <=? 0)%Z then DEAD else phase (gs w).
Proof.
  unfold handleCoreDamage; cbn.
  destruct (Z.max 0 (health (gs w) - 1) <=? 0)%Z; reflexivity.
Qed.

Lemma sameClockAndEconomy_refl (w : World) : sameClockAndEconomy w w.
Proof. unfold sameClockAndEconomy; tauto. Qed.

Lemma sameClockAndEconomy_trans (w1 w2 w3 : World) :
  sameClockAndEconomy w1 w2 -> sameClockAndEconomy w2 w3 ->
  sameClockAndEconomy w1 w3.
Proof.
  unfold sameClockAndEconomy; intros H1 H2.
  decompose [and] H1; decompose [and] H2; repeat split; congruence.
Qed.

Lemma handleCoreDamage_frame (w : World) :
  sameClockAndEconomy w (handleCoreDamage w) /\
  blocks (gs (handleCoreDamage w)) = blocks (gs w) /\
  score (gs (handleCoreDamage w)) = score (gs w) /\
  rngCalls (handleCoreDamage w) = rngCalls w.
Proof.
  unfold handleCoreDamage, sameClockAndEconomy; cbn.
  destruct (Z.max 0 (health (gs w) - 1) <=? 0)%Z; cbn; tauto.
Qed.

Lemma stepBall_frame (factor : R) (b : Ball) (w : World) :
  sameClockAndEconomy w (snd (stepBall factor b w)).
Proof.
  unfold stepBall.
  destruct (breaches _).
  - cbn [snd].
    destruct (handleCoreDamage_frame w) as [H _].
    unfold sameClockAndEconomy in *; cbn; exact H.
  - destruct (findHit _ _ _) as [[i b2]|]; cbn [snd].
    + unfold sameClockAndEconomy; cbn; tauto.
    + apply sameClockAndEconomy_refl.
Qed.

Lemma forBalls_frame (factor : R) (bs : list Ball) (w : World) :
  sameClockAndEconomy w (snd (forBalls factor bs w)).
Proof.
  revert w; induction bs as [|b rest IH]; intros w; cbn.
  - apply sameClockAndEconomy_refl.
  - pose proof (stepBall_frame factor b w) as Hb.
    destruct (stepBall factor b w) as [b' w1]; cbn in Hb.
    specialize (IH w1).
    destruct (forBalls factor rest w1) as [rest' w2].
    cbn in *. eapply sameClockAndEconomy_trans; eassumption.
Qed.

Lemma forBalls_length (factor : R) (bs : list Ball) (w : World) :
  List.length (fst (forBalls factor bs w)) = List.length bs.
Proof.
  revert w; induction bs as [|b rest IH]; intros w; cbn; [reflexivity|].
  destruct (stepBall factor b w) as [b' w1].
  specialize (IH w1).
  destruct (forBalls factor rest w1) as [rest' w2].
  cbn in *; congruence.
Qed.

(** ** The tick, stage by stage *)

Lemma gameLoop_not_playing (t : R) (w : World) :
  phase (gs w) <> PLAYING -> gameLoop t w = w.
Proof.
  intros H; unfold gameLoop.
  apply not_playing_iff in H; rewrite H; reflexivity.
Qed.

Lemma gameLoop_playing (t : R) (w : World) :
  phase (gs w) = PLAYING ->
  gameLoop t w =
  let r := forBalls (frameFactor (lastFrame w) t)
             (balls (gs (beforeBalls t w))) (beforeBalls t w) in
  set_gs (set_balls (fst r) (gs (snd r))) (snd r).
Proof.
  intros H; unfold gameLoop, beforeBalls.
  rewrite H; cbn [GamePhase_eqb negb].
  cbv zeta.
  destruct (forBalls _ _ _) as [bs w4]; reflexivity.
Qed.

Lemma regenStep_energy (t : R) (g : GameState) :
  (energy (regenStep t g) = energy g \/
   (energy (regenStep t g) = energy g + 1 /\ energy g < MAX_ENERGY /\
    lastEnergyRegen (regenStep t g) = t))%Z.
Proof.
  unfold regenStep.
  destruct (Rleb _ _); [|left; reflexivity].
  destruct (energy g <? MAX_ENERGY)%Z eqn:E; cbn; [|left; reflexivity].
  apply Z.ltb_lt in E. right. unfold MAX_ENERGY in *. repeat split; lia.
Qed.

Lemma regenStep_frame (t : R) (g : GameState) :
  balls (regenStep t g) = balls g /\ blocks (regenStep t g) = blocks g /\
  health (regenStep t g) = health g /\ score (regenStep t g) = score g /\
  wave (regenStep t g) = wave g /\ speed (regenStep t g) = speed g /\
  lastEscalation (regenStep t g) = lastEscalation g /\
  blockIdCounter (regenStep t g) = blockIdCounter g /\
  phase (regenStep t g) = phase g.
Proof.
  unfold regenStep.
  destruct (Rleb _ _); [|tauto].
  destruct (energy g <? MAX_ENERGY)%Z; cbn; tauto.
Qed.

Lemma regenStep_stamp (t : R) (g : GameState) :
  lastEnergyRegen (regenStep t g) =
  if Rleb ENERGY_REGEN_MS (t - lastEnergyRegen g) then t
  else lastEnergyRegen g.
Proof.
  unfold regenStep.
  destruct (Rleb _ _); [|reflexivity].
  destruct (energy g <? MAX_ENERGY)%Z; reflexivity.
Qed.

Lemma escalationStep_frame (t : R) (w : World) :
  energy (gs (escalationStep t w)) = energy (gs w) /\
  health (gs (escalationStep t w)) = health (gs w) /\
  score (gs (escalationStep t w)) = score (gs w) /\
  blocks (gs (escalationStep t w)) = blocks (gs w) /\
  lastEnergyRegen (gs (escalationStep t w)) = lastEnergyRegen (gs w) /\
  blockIdCounter (gs (escalationStep t w)) = blockIdCounter (gs w) /\
  phase (gs (escalationStep t w)) = phase (gs w) /\
  lastFrame (escalationStep t w) = lastFrame w.
Proof.
  unfold escalationStep.
  destruct (escalationDue t (gs w)); [|tauto].
  cbv zeta. destruct (Nat.ltb _ _); cbn; tauto.
Qed.

Lemma escalationStep_wave (t : R) (w : World) :
  wave (gs (escalationStep t w)) =
  if escalationDue t (gs w) then (wave (gs w) + 1)%Z else wave (gs w).
Proof.
  unfold escalationStep.
  destruct (escalationDue t (gs w)); [|reflexivity].
  cbv zeta. destruct (Nat.ltb _ _); reflexivity.
Qed.

Lemma escalationStep_stamp (t : R) (w : World) :
  lastEscalation (gs (escalationStep t w)) =
  if escalationDue t (gs w) then t else lastEscalation (gs w).
Proof.
  unfold escalationStep.
  destruct (escalationDue t (gs w)); [|reflexivity].
  cbv zeta. destruct (Nat.ltb _ _); reflexivity.
Qed.

(** The clock and economy fields after a tick are those computed before the
    loop over the balls. *)
Lemma gameLoop_clock_fields (t : R) (w : World) :
  phase (gs w) = PLAYING ->
  energy (gs (gameLoop t w)) = energy (regenStep t (gs w)) /\
  lastEnergyRegen (gs (gameLoop t w)) = lastEnergyRegen (regenStep t (gs w)) /\
  wave (gs (gameLoop t w)) = wave (gs (beforeBalls t w)) /\
  lastEscalation (gs (gameLoop t w)) = lastEscalation (gs (beforeBalls t w)) /\
  speed (gs (gameLoop t w)) = speed (gs (beforeBalls t w)) /\
  lastFrame (gameLoop t w) = t.
Proof.
  intros H. rewrite (gameLoop_playing t w H). cbv zeta.
  pose proof (forBalls_frame (frameFactor (lastFrame w) t)
                (balls (gs (beforeBalls t w))) (beforeBalls t w)) as F.
  destruct (forBalls _ _ _) as [bs w4]; cbn [fst snd] in *.
  unfold sameClockAndEconomy in F.
  destruct F as (Fe & Fw & Fs & Fr & Fx & _ & _ & Ff).
  cbn. rewrite Fe, Fw, Fs, Fr, Fx, Ff.
  unfold beforeBalls.
  destruct (escalationStep_frame t
              (set_gs (regenStep t (gs w)) (set_lastFrame t w)))
    as (E1 & _ & _ & _ & E5 & _ & _ & E8).
  rewrite E1, E5, E8. cbn. tauto.
Qed.

(** ** Health along the loop over the balls *)

Lemma stepBall_health (factor : R) (b : Ball) (w : World) :
  health (gs (snd (stepBall factor b w))) = health (gs w) \/
  health (gs (snd (stepBall factor b w))) = Z.max 0 (health (gs w) - 1).
Proof.
  unfold stepBall.
  destruct (breaches _).
  - right. cbn [snd]. cbn [gs set_rngCalls].
    apply handleCoreDamage_health.
  - left. destruct (findHit _ _ _) as [[i b2]|]; reflexivity.
Qed.

Lemma forBalls_health_range (factor : R) (bs : list Ball) (w : World) :
  (0 <= health (gs w) ->
   0 <= health (gs (snd (forBalls factor bs w))) <= health (gs w))%Z.
Proof.
  revert w; induction bs as [|b rest IH]; intros w Hw; cbn.
  - lia.
  - pose proof (stepBall_health factor b w) as Hb.
    destruct (stepBall factor b w) as [b' w1]; cbn [snd] in Hb.
    specialize (IH w1).
    destruct (forBalls factor rest w1) as [rest' w2]; cbn [snd] in *.
    lia.
Qed.

Lemma gameLoop_health_range (t : R) (w : World) :
  (0 <= health (gs w) ->
   0 <= health (gs (gameLoop t w)) <= health (gs w))%Z.
Proof.
  intros Hw.
  destruct (GamePhase_eqb (phase (gs w)) PLAYING) eqn:E.
  - apply GamePhase_eqb_eq in E. rewrite (gameLoop_playing t w E). cbv zeta.
    pose proof (forBalls_health_range (frameFactor (lastFrame w) t)
                  (balls (gs (beforeBalls t w))) (beforeBalls t w)) as F.
    assert (Hh : health (gs (beforeBalls t w)) = health (gs w)).
    { unfold beforeBalls.
      destruct (escalationStep_frame t
                  (set_gs (regenStep t (gs w)) (set_lastFrame t w)))
        as (_ & E2 & _).
      rewrite E2. cbn. apply regenStep_frame. }
    rewrite Hh in F. cbn. exact (F Hw).
  - rewrite gameLoop_not_playing; [lia|].
    intros Hp. rewrite Hp in E. discriminate.
Qed.

Lemma gameLoop_energy (t : R) (w : World) :
  (energy (gs (gameLoop t w)) = energy (gs w) \/
   (energy (gs (gameLoop t w)) = energy (gs w) + 1 /\
    energy (gs w) < MAX_ENERGY /\
    lastEnergyRegen (gs (gameLoop t w)) = t))%Z.
Proof.
  destruct (GamePhase_eqb (phase (gs w)) PLAYING) eqn:E.
  - apply GamePhase_eqb_eq in E.
    destruct (gameLoop_clock_fields t w E) as (He & Hr & _).
    rewrite He, Hr. apply regenStep_energy.
  - rewrite gameLoop_not_playing; [left; reflexivity|].
    intros Hp. rewrite Hp in E. discriminate.
Qed.

Lemma handleArenaTap_resources (tx ty : R) (w : World) :
  resourcesInRange w -> resourcesInRange (handleArenaTap tx ty w).
Proof.
  unfold resourcesInRange, handleArenaTap. intros [He Hh].
  destruct (negb _); [tauto|].
  destruct (energy (gs w) <=? 0)%Z eqn:E; [cbn; tauto|].
  apply Z.leb_gt in E.
  destruct (occupiedAt _ _ _); [tauto|].
  cbn. split; lia.
Qed.

(** C9: in every state reachable from the initial one by session starts,
    ticks and taps, energy lies in [0, MAX_ENERGY] and health in
    [0, MAX_HEALTH]. *)
Theorem C9_resources_within_bounds (w : World) :
  reachable w -> resourcesInRange w.
Proof.
  induction 1 as [|w _ _|w t _ IH|w tx ty _ IH].
  - unfold resourcesInRange, initialWorld, initialGameState, MAX_ENERGY,
      MAX_HEALTH; cbn; lia.
  - unfold resourcesInRange, startGame, MAX_ENERGY, MAX_HEALTH; cbn; lia.
  - destruct IH as [He Hh]. split.
    + destruct (gameLoop_energy t w) as [H|(H & Hlt & _)]; rewrite H;
        unfold MAX_ENERGY in *; lia.
    + pose proof (gameLoop_health_range t w); lia.
  - apply handleArenaTap_resources; assumption.
Qed.

(** C10: one tick raises energy by at most one and the wave by at most one,
    whatever the time elapsed since the last regeneration or escalation;
    a check that fires stamps the tick's own timestamp. *)
Theorem C10_no_catch_up_within_a_tick (t : R) (w : World) :
  (energy (gs w) <= energy (gs (gameLoop t w)) <= energy (gs w) + 1)%Z /\
  (wave (gs w) <= wave (gs (gameLoop t w)) <= wave (gs w) + 1)%Z /\
  (phase (gs w) = PLAYING ->
   ENERGY_REGEN_MS <= t - lastEnergyRegen (gs w) ->
   lastEnergyRegen (gs (gameLoop t w)) = t) /\
  (phase (gs w) = PLAYING ->
   ESCALATION_MS <= t - lastEscalation (gs w) ->
   lastEscalation (gs (gameLoop t w)) = t /\
   wave (gs (gameLoop t w)) = (wave (gs w) + 1)%Z).
Proof.
  assert (Hesc : forall g', lastEscalation g' = lastEscalation (gs w) ->
            escalationDue t g' = Rleb ESCALATION_MS (t - lastEscalation (gs w))).
  { intros g' Hg. unfold escalationDue. rewrite Hg. reflexivity. }
  split; [|split; [|split]].
  - destruct (gameLoop_energy t w) as [H|(H & _)]; rewrite H; lia.
  - destruct (GamePhase_eqb (phase (gs w)) PLAYING) eqn:E.
    + apply GamePhase_eqb_eq in E.
      destruct (gameLoop_clock_fields t w E) as (_ & _ & Hw & _).
      rewrite Hw. unfold beforeBalls. rewrite escalationStep_wave.
      destruct (escalationDue _ _); cbn;
        destruct (regenStep_frame t (gs w)) as (_ & _ & _ & _ & Hv & _);
        rewrite Hv; lia.
    + rewrite gameLoop_not_playing; [lia|].
      intros Hp. rewrite Hp in E. discriminate.
  - intros E Hdue.
    destruct (gameLoop_clock_fields t w E) as (_ & Hr & _).
    rewrite Hr, regenStep_stamp.
    apply Rleb_true in Hdue. rewrite Hdue. reflexivity.
  - intros E Hdue.
    destruct (gameLoop_clock_fields t w E) as (_ & _ & Hw & Hs & _).
    rewrite Hw, Hs. unfold beforeBalls.
    rewrite escalationStep_wave, escalationStep_stamp.
    cbn [gs set_gs set_lastFrame].
    destruct (regenStep_frame t (gs w)) as (_ & _ & _ & _ & Hv & _ & Hl & _).
    rewrite (Hesc _ Hl).
    apply Rleb_true in Hdue. rewrite Hdue. cbn. rewrite Hv. tauto.
Qed.

(** ** The inner loop over the obstacles *)

Lemma findHit_Some (b : Ball) (bls : list Block) (i j : nat) (b' : Ball) :
  findHit b bls i = Some (j, b') ->
  exists (k : nat) (blk : Block),
    j = (i + k)%nat /\ nth_error bls k = Some blk /\
    hits b blk = true /\ b' = reflect b blk /\
    forall (k' : nat) (blk' : Block),
      (k' < k)%nat -> nth_error bls k' = Some blk' -> hits b blk' = false.
Proof.
  revert i; induction bls as [|blk rest IH]; intros i H; cbn in H.
  - discriminate.
  - destruct (hits b blk) eqn:Hh.
    + injection H as <- <-. exists 0%nat, blk.
      repeat split; auto with arith. intros k' blk' Hk; lia.
    + destruct (IH _ H) as (k & blk0 & Hj & Hn & Hhit & Hb & Hfirst).
      exists (S k), blk0. repeat split; auto; [lia|].
      intros [|k'] blk' Hk Hn'; cbn in Hn'.
      * injection Hn' as <-. exact Hh.
      * apply (Hfirst k'); [lia|exact Hn'].
Qed.

Lemma findHit_None (b : Ball) (bls : list Block) (i : nat) :
  findHit b bls i = None <-> Forall (fun blk => hits b blk = false) bls.
Proof.
  revert i; induction bls as [|blk rest IH]; intros i; cbn.
  - split; auto.
  - destruct (hits b blk) eqn:Hh.
    + split; [discriminate|]. intros H. inversion H; congruence.
    + rewrite IH. split; [auto|]. intros H; inversion H; assumption.
Qed.

Lemma splice1_length {A : Type} (i : nat) (l : list A) :
  (i < List.length l)%nat ->
  S (List.length (splice1 i l)) = List.length l.
Proof.
  intros H. unfold splice1.
  rewrite length_app, length_firstn, length_skipn. lia.
Qed.

(** ** Velocity magnitude *)












(** ** Direction of a velocity: [cos] and [sin] of [atan2] *)







(** ** Escalation, branch by branch *)

Lemma escalationStep_not_due (t : R) (w : World) :
  escalationDue t (gs w) = false -> escalationStep t w = w.
Proof. intros H. unfold escalationStep. rewrite H. reflexivity. Qed.

Lemma escalationStep_spawn (t : R) (w : World) :
  escalationDue t (gs w) = true ->
  (List.length (balls (gs w)) < 3)%nat ->
  balls (gs (escalationStep t w)) =
    balls (gs w) ++
    [makeBall (speed (gs w)) (List.length (balls (gs w))) (rngCalls w)] /\
  speed (gs (escalationStep t w)) = speed (gs w) /\
  rngCalls (escalationStep t w) = (rngCalls w + 4)%nat.
Proof.
  intros Hd Hl. unfold escalationStep. rewrite Hd. cbv zeta.
  cbn [balls set_wave].
  apply Nat.ltb_lt in Hl. rewrite Hl. cbn. tauto.
Qed.

Lemma escalationStep_speed_up (t : R) (w : World) :
  escalationDue t (gs w) = true ->
  (3 <= List.length (balls (gs w)))%nat ->
  balls (gs (escalationStep t w)) =
    map (renormalize (speed (gs w) + SPEED_STEP)) (balls (gs w)) /\
  speed (gs (escalationStep t w)) = speed (gs w) + SPEED_STEP /\
  rngCalls (escalationStep t w) = rngCalls w.
Proof.
  intros Hd Hl. unfold escalationStep. rewrite Hd. cbv zeta.
  cbn [balls set_wave].
  apply Nat.ltb_ge in Hl. rewrite Hl. cbn. tauto.
Qed.


Lemma gameLoop_balls (t : R) (w : World) :
  phase (gs w) = PLAYING ->
  balls (gs (gameLoop t w)) =
  fst (forBalls (frameFactor (lastFrame w) t)
         (balls (gs (beforeBalls t w))) (beforeBalls t w)).
Proof. intros H. rewrite (gameLoop_playing t w H). reflexivity. Qed.






(** ** Placement *)

Lemma occupiedAt_true (bx by_ : R) (bls : list Block) :
  occupiedAt bx by_ bls = true <->
  exists blk : Block,
    In blk bls /\ Rabs (blk_x blk - bx) < 1 /\ Rabs (blk_y blk - by_) < 1.
Proof.
  unfold occupiedAt. rewrite existsb_exists.
  split; intros (blk & Hin & H); exists blk; (split; [exact Hin|]).
  - apply andb_true_iff in H. destruct H as [H1 H2].
    split; apply Rltb_true; assumption.
  - apply andb_true_iff. split; apply Rltb_true; tauto.
Qed.

Lemma handleArenaTap_rejected (tapX tapY : R) (w : World) :
  tapRejected tapX tapY w ->
  gs (handleArenaTap tapX tapY w) = gs w /\
  rngCalls (handleArenaTap tapX tapY w) = rngCalls w /\
  lastFrame (handleArenaTap tapX tapY w) = lastFrame w.
Proof.
  intros H. unfold handleArenaTap.
  destruct (negb _) eqn:Hp; [tauto|].
  destruct (energy (gs w) <=? 0)%Z eqn:He; [cbn; tauto|].
  destruct (occupiedAt _ _ _) eqn:Ho; [tauto|].
  exfalso. destruct H as [H|[H|H]].
  - apply not_playing_iff in H. congruence.
  - apply Z.leb_le in H. congruence.
  - apply occupiedAt_true in H. congruence.
Qed.

Lemma handleArenaTap_placed (tapX tapY : R) (w : World) :
  ~ tapRejected tapX tapY w ->
  handleArenaTap tapX tapY w =
  emit (hapticImpact ILight)
    (set_rngCalls (rngCalls w + 1)
       (set_gs
          (set_blocks
             (blocks (gs w) ++
              [mkBlock (blockIdCounter (gs w) + 1) (snapX tapX) (snapY tapY)
                 cellW BLOCK_H (randomBlockColor (rand (rngCalls w)))])
             (set_blockIdCounter (blockIdCounter (gs w) + 1)
                (set_energy (energy (gs w) - 1) (gs w)))) w)).
Proof.
  intros H. unfold handleArenaTap, tapRejected in *.
  destruct (negb _) eqn:Hp.
  { exfalso. apply H. left. apply not_playing_iff, Hp. }
  destruct (energy (gs w) <=? 0)%Z eqn:He.
  { exfalso. apply H. right; left. apply Z.leb_le, He. }
  destruct (occupiedAt _ _ _) eqn:Ho.
  { exfalso. apply H. right; right. apply occupiedAt_true, Ho. }
  reflexivity.
Qed.

(** C6: a tap is rejected, leaving the session state as it was, exactly
    when the phase is not Playing, or energy <= 0, or a block lies within
    1 of the snapped cell origin in both coordinates; otherwise it takes
    one unit of energy, advances the identifier counter by one and appends
    one block at the snapped origin.  With energy <= 0 during Playing the
    Warning haptic is fired and the number of blocks is unchanged. *)
Theorem C6_placement (tapX tapY : R) (w : World) :
  snapX tapX = IZR (Zfloor (tapX / cellW)) * cellW /\
  snapY tapY = IZR (Zfloor (tapY / BLOCK_H)) * BLOCK_H /\
  (gs (handleArenaTap tapX tapY w) = gs w <-> tapRejected tapX tapY w) /\
  (tapRejected tapX tapY w ->
   rngCalls (handleArenaTap tapX tapY w) = rngCalls w /\
   lastFrame (handleArenaTap tapX tapY w) = lastFrame w) /\
  (~ tapRejected tapX tapY w ->
   energy (gs (handleArenaTap tapX tapY w)) = (energy (gs w) - 1)%Z /\
   blockIdCounter (gs (handleArenaTap tapX tapY w)) =
     (blockIdCounter (gs w) + 1)%Z /\
   blocks (gs (handleArenaTap tapX tapY w)) =
     blocks (gs w) ++
     [mkBlock (blockIdCounter (gs w) + 1) (snapX tapX) (snapY tapY)
        cellW BLOCK_H (randomBlockColor (rand (rngCalls w)))] /\
   List.length (blocks (gs (handleArenaTap tapX tapY w))) =
     S (List.length (blocks (gs w))) /\
   balls (gs (handleArenaTap tapX tapY w)) = balls (gs w) /\
   health (gs (handleArenaTap tapX tapY w)) = health (gs w) /\
   score (gs (handleArenaTap tapX tapY w)) = score (gs w) /\
   wave (gs (handleArenaTap tapX tapY w)) = wave (gs w) /\
   speed (gs (handleArenaTap tapX tapY w)) = speed (gs w) /\
   phase (gs (handleArenaTap tapX tapY w)) = phase (gs w) /\
   haptics (handleArenaTap tapX tapY w) =
     hapticImpact ILight :: haptics w) /\
  (phase (gs w) = PLAYING -> (energy (gs w) <= 0)%Z ->
   haptics (handleArenaTap tapX tapY w) =
     hapticNotify NWarning :: haptics w /\
   List.length (blocks (gs (handleArenaTap tapX tapY w))) =
     List.length (blocks (gs w))) /\
  (tapRejected tapX tapY w ->
   ~ (phase (gs w) = PLAYING /\ (energy (gs w) <= 0)%Z) ->
   handleArenaTap tapX tapY w = w).
Proof.
  split; [reflexivity|]. split; [reflexivity|].
  split; [split|split; [|split; [|split]]].
  - intros Heq.
    destruct (GamePhase_eqb (phase (gs w)) PLAYING) eqn:Hp;
      [|left; intros Hq; rewrite Hq in Hp; discriminate].
    destruct (energy (gs w) <=? 0)%Z eqn:He;
      [right; left; apply Z.leb_le, He|].
    destruct (occupiedAt (snapX tapX) (snapY tapY) (blocks (gs w))) eqn:Ho;
      [right; right; apply occupiedAt_true, Ho|].
    exfalso. unfold handleArenaTap in Heq. rewrite Hp, He, Ho in Heq.
    cbn in Heq. apply (f_equal energy) in Heq. cbn in Heq. lia.
  - intros H. apply handleArenaTap_rejected, H.
  - intros H. apply handleArenaTap_rejected, H.
  - intros H. rewrite (handleArenaTap_placed _ _ _ H). cbn.
    rewrite length_app. cbn. repeat split; lia.
  - intros Hp He. unfold handleArenaTap.
    rewrite Hp. cbn [GamePhase_eqb negb].
    apply Z.leb_le in He. rewrite He. cbn. tauto.
  - intros H Hn. unfold handleArenaTap.
    destruct (negb _) eqn:Hp; [reflexivity|].
    destruct (energy (gs w) <=? 0)%Z eqn:He.
    + exfalso. apply Hn. split; [|apply Z.leb_le, He].
      destruct (phase (gs w)); try discriminate; reflexivity.
    + destruct (occupiedAt _ _ _) eqn:Ho; [reflexivity|].
      exfalso. destruct H as [H|[H|H]].
      * apply not_playing_iff in H. congruence.
      * apply Z.leb_le in H. congruence.
      * apply occupiedAt_true in H. congruence.
Qed.

(** ** Breach and respawn *)

Lemma bounceWalls_radius (b : Ball) : ball_radius (bounceWalls b) = ball_radius b.
Proof.
  unfold bounceWalls.
  repeat match goal with |- context [if ?c then _ else _] =>
    destruct c; cbn end; reflexivity.
Qed.

Lemma stepBall_breach (factor : R) (b : Ball) (w : World) :
  breaches (bounceWalls (integrate factor b)) = true ->
  stepBall factor b w =
  (respawn (speed (gs w)) (rngCalls w) (bounceWalls (integrate factor b)),
   set_rngCalls (rngCalls w + 4) (handleCoreDamage w)).
Proof.
  intros H. unfold stepBall. rewrite H.
  destruct (handleCoreDamage_frame w) as [(_ & _ & Hs & _) (_ & _ & Hr)].
  rewrite Hs, Hr. reflexivity.
Qed.

Lemma launchAngle_range (u : R) :
  0 <= u < 1 -> 0 < launchAngle u < PI.
Proof.
  intros Hu. unfold launchAngle. pose proof PI_RGT_0 as Hpi.
  split; nra.
Qed.

Lemma respawn_vy_pos (spd : R) (n : nat) (b : Ball) :
  0 <= rand (n + 2)%nat < 1 -> 0 < spd -> 0 < ball_vy (respawn spd n b).
Proof.
  intros Hu Hs. unfold respawn; cbn.
  destruct (launchAngle_range _ Hu) as [H0 H1].
  pose proof (sin_gt_0 _ H0 H1) as Hsin.
  apply Rabs_pos_lt. apply Rgt_not_eq. apply Rmult_lt_0_compat; assumption.
Qed.

(** ** Obstacle collision *)

Lemma clamp_nearest (lo len c p : R) :
  0 <= len -> lo <= p <= lo + len ->
  lo <= Rmax lo (Rmin c (lo + len)) <= lo + len /\
  (c - Rmax lo (Rmin c (lo + len))) * (c - Rmax lo (Rmin c (lo + len)))
    <= (c - p) * (c - p).
Proof.
  intros Hlen Hp. unfold Rmax, Rmin.
  destruct (Rle_dec c (lo + len)); destruct (Rle_dec lo _);
    repeat split; try lra;
    try (apply Rmult_le_compat; lra);
    try (replace ((c - p) * (c - p)) with ((p - c) * (p - c)) by ring;
         replace ((c - lo) * (c - lo)) with ((lo - c) * (lo - c)) by ring;
         apply Rmult_le_compat; lra);
    try (replace ((c - c) * (c - c)) with 0 by ring;
         pose proof (Rle_0_sqr (c - p)) as H0; unfold Rsqr in H0; lra).
Qed.

Lemma stepBall_no_breach (factor : R) (b : Ball) (w : World) :
  breaches (bounceWalls (integrate factor b)) = false ->
  stepBall factor b w =
  match findHit (bounceWalls (integrate factor b)) (blocks (gs w)) 0 with
  | Some (hitBlock, b2) =>
      (b2, emit (hapticImpact IHeavy)
             (set_gs (set_score (score (gs w) + 10)
                        (set_blocks (splice1 hitBlock (blocks (gs w))) (gs w)))
                w))
  | None => (bounceWalls (integrate factor b), w)
  end.
Proof.
  intros H. unfold stepBall. rewrite H.
  destruct (findHit _ _ _) as [[i b2]|]; reflexivity.
Qed.

(** C8: a block is hit exactly when the squared distance from the centre of
    the ball to the nearest point of the rectangle is strictly below the
    squared radius; the blocks are tried in list order and the first hit
    ends the search, so one ball step removes at most one block, and each
    removal adds exactly 10 to the score. *)
Theorem C8_first_hit_strict (factor : R) (b : Ball) (w : World) :
  (forall (c : Ball) (blk : Block),
     (hits c blk = true <-> dist2 c blk < ball_radius c * ball_radius c) /\
     (dist2 c blk = ball_radius c * ball_radius c -> hits c blk = false) /\
     dist2 c blk =
       (ball_x c - nearX c blk) * (ball_x c - nearX c blk) +
       (ball_y c - nearY c blk) * (ball_y c - nearY c blk) /\
     (0 <= blk_w blk -> 0 <= blk_h blk ->
      (blk_x blk <= nearX c blk <= blk_x blk + blk_w blk /\
       blk_y blk <= nearY c blk <= blk_y blk + blk_h blk) /\
      forall px py : R,
        blk_x blk <= px <= blk_x blk + blk_w blk ->
        blk_y blk <= py <= blk_y blk + blk_h blk ->
        dist2 c blk <=
          (ball_x c - px) * (ball_x c - px) +
          (ball_y c - py) * (ball_y c - py))) /\
  ((blocks (gs (snd (stepBall factor b w))) = blocks (gs w) /\
    score (gs (snd (stepBall factor b w))) = score (gs w) /\
    (breaches (bounceWalls (integrate factor b)) = true \/
     Forall (fun blk => hits (bounceWalls (integrate factor b)) blk = false)
       (blocks (gs w))))
   \/
   (exists (i : nat) (blk : Block),
      breaches (bounceWalls (integrate factor b)) = false /\
      nth_error (blocks (gs w)) i = Some blk /\
      hits (bounceWalls (integrate factor b)) blk = true /\
      (forall (j : nat) (blk' : Block),
         (j < i)%nat -> nth_error (blocks (gs w)) j = Some blk' ->
         hits (bounceWalls (integrate factor b)) blk' = false) /\
      fst (stepBall factor b w) =
        reflect (bounceWalls (integrate factor b)) blk /\
      blocks (gs (snd (stepBall factor b w))) =
        splice1 i (blocks (gs w)) /\
      S (List.length (blocks (gs (snd (stepBall factor b w))))) =
        List.length (blocks (gs w)) /\
      score (gs (snd (stepBall factor b w))) = (score (gs w) + 10)%Z)).
Proof.
  split.
  - intros c blk. split; [apply Rltb_true|]. split.
    { intros H. apply Rltb_false. unfold hits in *. lra. }
    split; [reflexivity|].
    intros Hw Hh.
    assert (Hx0 : blk_x blk <= blk_x blk <= blk_x blk + blk_w blk) by lra.
    assert (Hy0 : blk_y blk <= blk_y blk <= blk_y blk + blk_h blk) by lra.
    split.
    + split.
      * apply (clamp_nearest _ _ (ball_x c) _ Hw Hx0).
      * apply (clamp_nearest _ _ (ball_y c) _ Hh Hy0).
    + intros px py Hpx Hpy. unfold dist2, nearX, nearY. cbv zeta.
      destruct (clamp_nearest _ _ (ball_x c) _ Hw Hpx) as [_ Hdx].
      destruct (clamp_nearest _ _ (ball_y c) _ Hh Hpy) as [_ Hdy].
      lra.
  - destruct (breaches (bounceWalls (integrate factor b))) eqn:Hb.
    + left. rewrite (stepBall_breach factor b w Hb). cbn [snd gs set_rngCalls].
      destruct (handleCoreDamage_frame w) as [_ (Hbl & Hsc & _)].
      rewrite Hbl, Hsc. tauto.
    + rewrite (stepBall_no_breach factor b w Hb).
      destruct (findHit _ _ _) as [[i b2]|] eqn:Hf.
      * right. apply findHit_Some in Hf.
        destruct Hf as (k & blk & Hi & Hn & Hhit & Hb2 & Hfirst).
        cbn in Hi. subst i. exists k, blk. cbn.
        repeat split; auto.
        apply splice1_length. apply nth_error_Some. congruence.
      * left. apply findHit_None in Hf. cbn. tauto.
Qed.

(** ** Termination inside a tick *)

Lemma handleCoreDamage_alive_or_dead (w : World) :
  (0 < health (gs (handleCoreDamage w)))%Z \/
  (health (gs (handleCoreDamage w)) = 0%Z /\
   phase (gs (handleCoreDamage w)) = DEAD).
Proof.
  rewrite handleCoreDamage_health, handleCoreDamage_phase.
  destruct (Z.max 0 (health (gs w) - 1) <=? 0)%Z eqn:E.
  - apply Z.leb_le in E. right. split; [lia|reflexivity].
  - apply Z.leb_gt in E. left. exact E.
Qed.

Lemma stepBall_aliveOrDead (factor : R) (b : Ball) (w : World) :
  aliveOrDead w -> aliveOrDead (snd (stepBall factor b w)).
Proof.
  intros H. unfold aliveOrDead in *.
  destruct (breaches (bounceWalls (integrate factor b))) eqn:Hb.
  - rewrite (stepBall_breach factor b w Hb). cbn [snd gs set_rngCalls].
    destruct (handleCoreDamage_alive_or_dead w) as [Hh|[_ Hp]]; tauto.
  - rewrite (stepBall_no_breach factor b w Hb).
    destruct (findHit _ _ _) as [[i b2]|]; exact H.
Qed.

Lemma forBalls_aliveOrDead (factor : R) (bs : list Ball) (w : World) :
  aliveOrDead w -> aliveOrDead (snd (forBalls factor bs w)).
Proof.
  revert w; induction bs as [|b rest IH]; intros w H; cbn; [exact H|].
  pose proof (stepBall_aliveOrDead factor b w H) as Hb.
  destruct (stepBall factor b w) as [b' w1]; cbn [snd] in Hb.
  specialize (IH w1 Hb).
  destruct (forBalls factor rest w1) as [rest' w2]. exact IH.
Qed.

Lemma stepBall_stays_dead (factor : R) (b : Ball) (w : World) :
  phase (gs w) = DEAD -> phase (gs (snd (stepBall factor b w))) = DEAD.
Proof.
  intros H.
  destruct (breaches (bounceWalls (integrate factor b))) eqn:Hb.
  - rewrite (stepBall_breach factor b w Hb). cbn [snd gs set_rngCalls].
    rewrite handleCoreDamage_phase, H. destruct (_ <=? _)%Z; reflexivity.
  - rewrite (stepBall_no_breach factor b w Hb).
    destruct (findHit _ _ _) as [[i b2]|]; exact H.
Qed.

Lemma forBalls_stays_dead (factor : R) (bs : list Ball) (w : World) :
  phase (gs w) = DEAD -> phase (gs (snd (forBalls factor bs w))) = DEAD.
Proof.
  revert w; induction bs as [|b rest IH]; intros w H; cbn; [exact H|].
  pose proof (stepBall_stays_dead factor b w H) as Hb.
  destruct (stepBall factor b w) as [b' w1]; cbn [snd] in Hb.
  specialize (IH w1 Hb).
  destruct (forBalls factor rest w1) as [rest' w2]. exact IH.
Qed.

Lemma forBalls_cons (factor : R) (b : Ball) (rest : list Ball) (w : World) :
  forBalls factor (b :: rest) w =
  (fst (stepBall factor b w) ::
     fst (forBalls factor rest (snd (stepBall factor b w))),
   snd (forBalls factor rest (snd (stepBall factor b w)))).
Proof.
  cbn. destruct (stepBall factor b w) as [b' w1]. cbn [fst snd].
  destruct (forBalls factor rest w1); reflexivity.
Qed.

(** C1, as the code has it: the decrement that brings health to zero sets
    the phase to DEAD in the same call; the phase then stays DEAD and the
    health stays 0 for the rest of the tick, a tick that ends with no
    health left ends DEAD with health 0, and every later tick leaves the
    world as it is.  The rest of the
    terminating tick still runs: the breaching ball is respawned and the
    balls after it are stepped as usual. *)
Theorem C1_termination_with_the_decrement (t factor : R) (w : World) :
  (health (gs w) = 1%Z ->
   health (gs (handleCoreDamage w)) = 0%Z /\
   phase (gs (handleCoreDamage w)) = DEAD) /\
  (forall bs : list Ball,
     phase (gs w) = DEAD -> phase (gs (snd (forBalls factor bs w))) = DEAD) /\
  (forall bs : list Ball,
     health (gs w) = 0%Z ->
     health (gs (snd (forBalls factor bs w))) = 0%Z) /\
  ((0 < health (gs w))%Z -> (health (gs (gameLoop t w)) <= 0)%Z ->
   phase (gs (gameLoop t w)) = DEAD /\
   health (gs (gameLoop t w)) = 0%Z) /\
  (phase (gs w) = DEAD -> gameLoop t w = w) /\
  (forall b : Ball,
     breaches (bounceWalls (integrate factor b)) = true ->
     stepBall factor b w =
     (respawn (speed (gs w)) (rngCalls w) (bounceWalls (integrate factor b)),
      set_rngCalls (rngCalls w + 4) (handleCoreDamage w))) /\
  (forall (b : Ball) (rest : list Ball),
     forBalls factor (b :: rest) w =
     (fst (stepBall factor b w) ::
        fst (forBalls factor rest (snd (stepBall factor b w))),
      snd (forBalls factor rest (snd (stepBall factor b w))))).
Proof.
  split.
  { intros H. rewrite handleCoreDamage_health, handleCoreDamage_phase, H.
    split; reflexivity. }
  split; [intros bs; apply forBalls_stays_dead|].
  split.
  { intros bs H0.
    pose proof (forBalls_health_range factor bs w) as Hr. lia. }
  split.
  { intros Hpos Hz.
    assert (Hzero : health (gs (gameLoop t w)) = 0%Z)
      by (pose proof (gameLoop_health_range t w); lia).
    split; [|exact Hzero]. clear Hzero.
    destruct (GamePhase_eqb (phase (gs w)) PLAYING) eqn:E.
    - apply GamePhase_eqb_eq in E.
      rewrite (gameLoop_playing t w E) in *. cbv zeta in *.
      assert (Ha : aliveOrDead (beforeBalls t w)).
      { left. unfold beforeBalls.
        destruct (escalationStep_frame t
                    (set_gs (regenStep t (gs w)) (set_lastFrame t w)))
          as (_ & -> & _).
        cbn [gs set_gs].
        destruct (regenStep_frame t (gs w)) as (_ & _ & -> & _). exact Hpos. }
      apply (forBalls_aliveOrDead (frameFactor (lastFrame w) t)
               (balls (gs (beforeBalls t w)))) in Ha.
      cbn in *. destruct Ha as [Ha|Ha]; [lia|exact Ha].
    - rewrite gameLoop_not_playing in Hz; [lia|].
      intros Hp. rewrite Hp in E. discriminate. }
  split.
  { intros H. apply gameLoop_not_playing. rewrite H. discriminate. }
  split; [intros b; apply stepBall_breach|].
  intros b rest. apply forBalls_cons.
Qed.

(** ** The frame clock *)

(** C3, as the code has it: the elapsed time of a frame is
    dt = min(timestamp - lastFrame, 33), read with lastFrame = timestamp
    when the stored stamp is the sentinel 0: it is timestamp - lastFrame up
    to 33 ms and 33 beyond, so it is capped from above only.  It is
    non-negative whenever the previous frame stamp is the sentinel 0 or is
    not later than the timestamp; a timestamp earlier than the previous one
    gives a negative factor, and that factor is the one the balls are
    integrated with. *)
Theorem C3_elapsed_time_capped_above (lf t : R) (w : World) :
  (lf <> 0 -> frameDt lf t = Rmin (t - lf) 33) /\
  (lf <> 0 -> t - lf <= 33 -> frameDt lf t = t - lf) /\
  (lf <> 0 -> 33 <= t - lf -> frameDt lf t = 33) /\
  frameFactor lf t = frameDt lf t / 16.67 /\
  frameDt lf t <= 33 /\
  frameFactor lf t <= 33 / 16.67 /\
  (lf = 0 -> frameDt lf t = 0 /\ frameFactor lf t = 0) /\
  (lf <= t -> 0 <= frameDt lf t /\ 0 <= frameFactor lf t) /\
  (lf <> 0 -> t < lf -> frameFactor lf t = (t - lf) / 16.67 /\
                        frameFactor lf t < 0) /\
  (phase (gs w) = PLAYING ->
   balls (gs (gameLoop t w)) =
   fst (forBalls (frameFactor (lastFrame w) t)
          (balls (gs (beforeBalls t w))) (beforeBalls t w))).
Proof.
  assert (Hcap : frameDt lf t <= 33) by (unfold frameDt; apply Rmin_r).
  assert (Hdt : lf <> 0 -> frameDt lf t = Rmin (t - lf) 33).
  { intros Hnz. unfold frameDt, frameStart.
    rewrite (proj2 (Reqb_false lf 0) Hnz). reflexivity. }
  split; [exact Hdt|].
  split; [intros Hnz Hle; rewrite (Hdt Hnz); apply Rmin_left, Hle|].
  split; [intros Hnz Hle; rewrite (Hdt Hnz); apply Rmin_right, Hle|].
  split; [reflexivity|].
  split; [exact Hcap|].
  split; [unfold frameFactor; lra|].
  split.
  { intros ->. unfold frameFactor, frameDt, frameStart.
    rewrite (proj2 (Reqb_true 0 0) eq_refl).
    replace (t - t) with 0 by ring. rewrite Rmin_left by lra. lra. }
  split.
  { intros Hle. unfold frameFactor, frameDt, frameStart.
    destruct (Reqb lf 0).
    - replace (t - t) with 0 by ring. rewrite Rmin_left by lra. lra.
    - assert (0 <= Rmin (t - lf) 33) by (apply Rmin_glb; lra). lra. }
  split.
  { intros Hnz Hlt. unfold frameFactor, frameDt, frameStart.
    rewrite (proj2 (Reqb_false lf 0) Hnz).
    rewrite Rmin_left by lra. lra. }
  apply gameLoop_balls.
Qed.

(** ** Evaluating a tick on given balls *)

Lemma beforeBalls_quiet (t : R) (w : World) :
  t - lastEnergyRegen (gs w) < ENERGY_REGEN_MS ->
  t - lastEscalation (gs w) < ESCALATION_MS ->
  beforeBalls t w = set_lastFrame t w.
Proof.
  intros Hr He. unfold beforeBalls, regenStep.
  cbn [gs set_lastFrame].
  rewrite (proj2 (Rleb_false _ _) Hr).
  rewrite escalationStep_not_due; [reflexivity|].
  unfold escalationDue. cbn [gs set_gs]. apply Rleb_false, He.
Qed.

Lemma bounceWalls_free (b : Ball) :
  0 < ball_x b - ball_radius b ->
  ball_x b + ball_radius b < arenaW ->
  0 < ball_y b - ball_radius b ->
  bounceWalls b = b.
Proof.
  intros H1 H2 H3. unfold bounceWalls.
  rewrite (proj2 (Rleb_false _ _) H1).
  rewrite (proj2 (Rleb_false _ _) H2).
  rewrite (proj2 (Rleb_false _ _) H3). reflexivity.
Qed.

Lemma stepBall_free (factor : R) (b : Ball) (w : World) :
  breaches (bounceWalls (integrate factor b)) = false ->
  Forall (fun blk => hits (bounceWalls (integrate factor b)) blk = false)
    (blocks (gs w)) ->
  stepBall factor b w = (bounceWalls (integrate factor b), w).
Proof.
  intros Hb Hn. rewrite (stepBall_no_breach factor b w Hb).
  apply (findHit_None _ _ 0) in Hn. rewrite Hn. reflexivity.
Qed.

Lemma stepBall_hit_head (factor : R) (b : Ball) (w : World)
    (blk : Block) (rest : list Block) :
  breaches (bounceWalls (integrate factor b)) = false ->
  blocks (gs w) = blk :: rest ->
  hits (bounceWalls (integrate factor b)) blk = true ->
  stepBall factor b w =
  (reflect (bounceWalls (integrate factor b)) blk,
   emit (hapticImpact IHeavy)
     (set_gs (set_score (score (gs w) + 10) (set_blocks rest (gs w))) w)).
Proof.
  intros Hb Hbl Hh. rewrite (stepBall_no_breach factor b w Hb).
  rewrite Hbl. cbn [findHit]. rewrite Hh. reflexivity.
Qed.

Lemma gameLoop_single_free (t : R) (w : World) (b : Ball) :
  phase (gs w) = PLAYING ->
  t - lastEnergyRegen (gs w) < ENERGY_REGEN_MS ->
  t - lastEscalation (gs w) < ESCALATION_MS ->
  balls (gs w) = [b] ->
  blocks (gs w) = [] ->
  0 < ball_x (integrate (frameFactor (lastFrame w) t) b) - ball_radius b ->
  ball_x (integrate (frameFactor (lastFrame w) t) b) + ball_radius b
    < arenaW ->
  0 < ball_y (integrate (frameFactor (lastFrame w) t) b) - ball_radius b ->
  ball_y (integrate (frameFactor (lastFrame w) t) b) + ball_radius b
    < arenaH ->
  gameLoop t w =
  set_gs (set_balls [integrate (frameFactor (lastFrame w) t) b] (gs w))
    (set_lastFrame t w).
Proof.
  intros Hp Hr He Hb Hbl H1 H2 H3 H4.
  rewrite (gameLoop_playing t w Hp). cbv zeta.
  rewrite (beforeBalls_quiet t w Hr He). cbn [gs set_lastFrame].
  rewrite Hb, forBalls_cons.
  set (f := frameFactor (lastFrame w) t) in *.
  assert (Hfree : bounceWalls (integrate f b) = integrate f b)
    by (apply bounceWalls_free; assumption).
  rewrite stepBall_free.
  - rewrite Hfree. reflexivity.
  - rewrite Hfree. apply Rleb_false. exact H4.
  - cbn [gs set_lastFrame]. rewrite Hbl. constructor.
Qed.

(** * Further properties of the engine *)

(** ** Lists: pairwise relations under append and splice *)

Lemma Forall_splice1 {A : Type} (P : A -> Prop) (i : nat) (l : list A) :
  Forall P l -> Forall P (splice1 i l).
Proof.
  revert i; induction l as [|a rest IH]; intros i H.
  - unfold splice1. destruct i; constructor.
  - inversion H as [|? ? Ha Hr]; subst. destruct i as [|i].
    + exact Hr.
    + change (Forall P (a :: splice1 i rest)).
      constructor; [exact Ha|apply IH, Hr].
Qed.

Lemma splice1_cons {A : Type} (i : nat) (a : A) (l : list A) :
  splice1 (S i) (a :: l) = a :: splice1 i l.
Proof. reflexivity. Qed.

Lemma pairwise_splice1 {A : Type} (R : A -> A -> Prop) (i : nat)
    (l : list A) :
  pairwise R l -> pairwise R (splice1 i l).
Proof.
  revert i; induction l as [|a rest IH]; intros i H.
  - unfold splice1. destruct i; exact I.
  - destruct H as [Ha Hr]. destruct i as [|i].
    + unfold splice1; cbn. exact Hr.
    + rewrite splice1_cons. split.
      * apply Forall_splice1, Ha.
      * apply IH, Hr.
Qed.

Lemma pairwise_snoc {A : Type} (R : A -> A -> Prop) (l : list A) (x : A) :
  pairwise R l -> Forall (fun a => R a x) l -> pairwise R (l ++ [x]).
Proof.
  induction l as [|a rest IH]; intros H Hx; cbn.
  - split; [constructor|exact I].
  - destruct H as [Ha Hr]. inversion Hx as [|? ? Hax Hrx]; subst. split.
    + apply Forall_app. split; [exact Ha|constructor; [exact Hax|constructor]].
    + apply IH; assumption.
Qed.

Lemma pairwise_nth {A : Type} (R : A -> A -> Prop) (l : list A) :
  pairwise R l ->
  forall (i j : nat) (a b : A),
    (i < j)%nat -> nth_error l i = Some a -> nth_error l j = Some b -> R a b.
Proof.
  induction l as [|x rest IH]; intros H i j a b Hij Hi Hj.
  - destruct i; discriminate.
  - destruct H as [Hx Hr]. destruct j as [|j]; [lia|].
    cbn in Hj. destruct i as [|i].
    + cbn in Hi. injection Hi as <-.
      rewrite Forall_forall in Hx. apply Hx. eapply nth_error_In; eauto.
    + cbn in Hi. apply (IH Hr i j); auto. lia.
Qed.

(** ** A property kept by every ball step is kept by the loop and the tick *)

Lemma forBalls_keeps (P : World -> Prop) :
  (forall (factor : R) (b : Ball) (w : World),
     P w -> P (snd (stepBall factor b w))) ->
  forall (factor : R) (bs : list Ball) (w : World),
    P w -> P (snd (forBalls factor bs w)).
Proof.
  intros Hstep factor bs.
  induction bs as [|b rest IH]; intros w H; [exact H|].
  rewrite forBalls_cons. cbn [snd]. apply IH, Hstep, H.
Qed.

Lemma beforeBalls_frame (t : R) (w : World) :
  blocks (gs (beforeBalls t w)) = blocks (gs w) /\
  score (gs (beforeBalls t w)) = score (gs w) /\
  health (gs (beforeBalls t w)) = health (gs w) /\
  blockIdCounter (gs (beforeBalls t w)) = blockIdCounter (gs w) /\
  phase (gs (beforeBalls t w)) = phase (gs w).
Proof.
  unfold beforeBalls.
  destruct (escalationStep_frame t
              (set_gs (regenStep t (gs w)) (set_lastFrame t w)))
    as (_ & -> & -> & -> & _ & -> & -> & _).
  cbn [gs set_gs].
  destruct (regenStep_frame t (gs w))
    as (_ & -> & -> & -> & _ & _ & _ & -> & ->).
  tauto.
Qed.

(** The fields the loop over the balls can write, after a tick. *)
Lemma gameLoop_loop_fields (t : R) (w : World) :
  phase (gs w) = PLAYING ->
  blocks (gs (gameLoop t w)) =
    blocks (gs (snd (forBalls (frameFactor (lastFrame w) t)
                       (balls (gs (beforeBalls t w))) (beforeBalls t w)))) /\
  score (gs (gameLoop t w)) =
    score (gs (snd (forBalls (frameFactor (lastFrame w) t)
                      (balls (gs (beforeBalls t w))) (beforeBalls t w)))) /\
  health (gs (gameLoop t w)) =
    health (gs (snd (forBalls (frameFactor (lastFrame w) t)
                       (balls (gs (beforeBalls t w))) (beforeBalls t w)))) /\
  phase (gs (gameLoop t w)) =
    phase (gs (snd (forBalls (frameFactor (lastFrame w) t)
                      (balls (gs (beforeBalls t w))) (beforeBalls t w)))) /\
  blockIdCounter (gs (gameLoop t w)) = blockIdCounter (gs w).
Proof.
  intros H. rewrite (gameLoop_playing t w H). cbv zeta. cbn.
  repeat split.
  pose proof (forBalls_frame (frameFactor (lastFrame w) t)
                (balls (gs (beforeBalls t w))) (beforeBalls t w)) as F.
  destruct F as (_ & _ & _ & _ & _ & -> & _).
  apply beforeBalls_frame.
Qed.

(** ** Score and blocks *)

Lemma stepBall_score_blocks (factor : R) (b : Ball) (w : World) :
  (List.length (blocks (gs (snd (stepBall factor b w))))
     <= List.length (blocks (gs w)))%nat /\
  (List.length (blocks (gs w))
     <= S (List.length (blocks (gs (snd (stepBall factor b w))))))%nat /\
  (score (gs (snd (stepBall factor b w)))
   + 10 * Z.of_nat (List.length (blocks (gs (snd (stepBall factor b w)))))
   = score (gs w) + 10 * Z.of_nat (List.length (blocks (gs w))))%Z.
Proof.
  destruct (breaches (bounceWalls (integrate factor b))) eqn:Hb.
  - rewrite (stepBall_breach factor b w Hb). cbn [snd gs set_rngCalls].
    destruct (handleCoreDamage_frame w) as [_ (-> & -> & _)]. lia.
  - rewrite (stepBall_no_breach factor b w Hb).
    destruct (findHit _ _ _) as [[i b2]|] eqn:Hf;
      cbn [snd gs emit set_gs set_score set_blocks blocks score]; [|lia].
    apply findHit_Some in Hf.
    destruct Hf as (k & blk & Hi & Hn & _).
    cbn in Hi; subst i.
    assert (Hlen : S (List.length (splice1 k (blocks (gs w))))
                   = List.length (blocks (gs w))).
    { apply splice1_length, nth_error_Some. congruence. }
    lia.
Qed.

Lemma forBalls_score_blocks (factor : R) (bs : list Ball) (w : World) :
  (List.length (blocks (gs (snd (forBalls factor bs w))))
     <= List.length (blocks (gs w)))%nat /\
  (List.length (blocks (gs w))
     <= List.length (blocks (gs (snd (forBalls factor bs w))))
        + List.length bs)%nat /\
  (score (gs (snd (forBalls factor bs w)))
   + 10 * Z.of_nat (List.length (blocks (gs (snd (forBalls factor bs w)))))
   = score (gs w) + 10 * Z.of_nat (List.length (blocks (gs w))))%Z.
Proof.
  revert w; induction bs as [|b rest IH]; intros w.
  - cbn. lia.
  - rewrite forBalls_cons. cbn [snd].
    pose proof (stepBall_score_blocks factor b w) as Hb.
    specialize (IH (snd (stepBall factor b w))).
    cbn [List.length]. lia.
Qed.

Lemma gameLoop_score_blocks (t : R) (w : World) :
  (List.length (blocks (gs (gameLoop t w)))
     <= List.length (blocks (gs w)))%nat /\
  (List.length (blocks (gs w))
     <= List.length (blocks (gs (gameLoop t w)))
        + List.length (balls (gs (gameLoop t w))))%nat /\
  score (gs (gameLoop t w)) =
    (score (gs w)
     + 10 * (Z.of_nat (List.length (blocks (gs w)))
             - Z.of_nat (List.length (blocks (gs (gameLoop t w))))))%Z.
Proof.
  destruct (GamePhase_eqb (phase (gs w)) PLAYING) eqn:E.
  - apply GamePhase_eqb_eq in E.
    destruct (gameLoop_loop_fields t w E) as (-> & -> & _).
    rewrite (gameLoop_balls t w E), forBalls_length.
    pose proof (forBalls_score_blocks (frameFactor (lastFrame w) t)
                  (balls (gs (beforeBalls t w))) (beforeBalls t w)) as F.
    destruct (beforeBalls_frame t w) as (Hb & Hs & _).
    rewrite Hb, Hs in F. lia.
  - rewrite gameLoop_not_playing; [lia|].
    intros Hp. rewrite Hp in E. discriminate.
Qed.

(** X1: a tick removes at most one block per ball and never adds one, and
    the score grows by exactly 10 for each block removed. *)
Theorem tick_score_is_ten_per_block_removed (t : R) (w : World) :
  (List.length (blocks (gs (gameLoop t w)))
     <= List.length (blocks (gs w)))%nat /\
  (List.length (blocks (gs w))
     <= List.length (blocks (gs (gameLoop t w)))
        + List.length (balls (gs (gameLoop t w))))%nat /\
  score (gs (gameLoop t w)) =
    (score (gs w)
     + 10 * (Z.of_nat (List.length (blocks (gs w)))
             - Z.of_nat (List.length (blocks (gs (gameLoop t w))))))%Z.
Proof.
  destruct (GamePhase_eqb (phase (gs w)) PLAYING) eqn:E.
  - apply GamePhase_eqb_eq in E.
    destruct (gameLoop_loop_fields t w E) as (-> & -> & _).
    rewrite (gameLoop_balls t w E), forBalls_length.
    pose proof (forBalls_score_blocks (frameFactor (lastFrame w) t)
                  (balls (gs (beforeBalls t w))) (beforeBalls t w)) as F.
    destruct (beforeBalls_frame t w) as (Hb & Hs & _).
    rewrite Hb, Hs in F. lia.
  - rewrite gameLoop_not_playing; [lia|].
    intros Hp. rewrite Hp in E. discriminate.
Qed.

(** ** What a tick and a tap do to the list of blocks *)

Lemma stepBall_blocks_cases (factor : R) (b : Ball) (w : World) :
  blocks (gs (snd (stepBall factor b w))) = blocks (gs w) \/
  exists k : nat,
    blocks (gs (snd (stepBall factor b w))) = splice1 k (blocks (gs w)).
Proof.
  destruct (breaches (bounceWalls (integrate factor b))) eqn:Hb.
  - left. rewrite (stepBall_breach factor b w Hb). cbn [snd gs set_rngCalls].
    apply handleCoreDamage_frame.
  - rewrite (stepBall_no_breach factor b w Hb).
    destruct (findHit _ _ _) as [[i b2]|]; [right; exists i|left];
      reflexivity.
Qed.

Lemma gameLoop_blocks_keep (Q : list Block -> Prop) (t : R) (w : World) :
  (forall (k : nat) (l : list Block), Q l -> Q (splice1 k l)) ->
  Q (blocks (gs w)) -> Q (blocks (gs (gameLoop t w))).
Proof.
  intros Hq H.
  destruct (GamePhase_eqb (phase (gs w)) PLAYING) eqn:E.
  - apply GamePhase_eqb_eq in E.
    destruct (gameLoop_loop_fields t w E) as (-> & _).
    apply (forBalls_keeps (fun w' => Q (blocks (gs w')))).
    + intros f b w' Hw'.
      destruct (stepBall_blocks_cases f b w') as [->|[k ->]]; auto.
    + destruct (beforeBalls_frame t w) as (-> & _). exact H.
  - rewrite gameLoop_not_playing; [exact H|].
    intros Hp. rewrite Hp in E. discriminate.
Qed.

Lemma handleArenaTap_cases (tapX tapY : R) (w : World) :
  handleArenaTap tapX tapY w = w \/
  handleArenaTap tapX tapY w = emit (hapticNotify NWarning) w \/
  (phase (gs w) = PLAYING /\ (0 < energy (gs w))%Z /\
   occupiedAt (snapX tapX) (snapY tapY) (blocks (gs w)) = false /\
   gs (handleArenaTap tapX tapY w) =
     set_blocks
       (blocks (gs w) ++
        [mkBlock (blockIdCounter (gs w) + 1) (snapX tapX) (snapY tapY)
           cellW BLOCK_H (randomBlockColor (rand (rngCalls w)))])
       (set_blockIdCounter (blockIdCounter (gs w) + 1)
          (set_energy (energy (gs w) - 1) (gs w)))).
Proof.
  unfold handleArenaTap.
  destruct (GamePhase_eqb (phase (gs w)) PLAYING) eqn:Hp; cbn [negb];
    [|left; reflexivity].
  destruct (energy (gs w) <=? 0)%Z eqn:He; [right; left; reflexivity|].
  destruct (occupiedAt _ _ _) eqn:Ho; [left; reflexivity|].
  right; right. apply GamePhase_eqb_eq in Hp. apply Z.leb_gt in He.
  repeat split; assumption.
Qed.

Lemma occupiedAt_false (bx by_ : R) (bls : list Block) :
  occupiedAt bx by_ bls = false ->
  Forall (fun a => ~ (Rabs (blk_x a - bx) < 1 /\ Rabs (blk_y a - by_) < 1))
    bls.
Proof.
  intros H. apply Forall_forall. intros a Ha Hc.
  assert (Ht : occupiedAt bx by_ bls = true)
    by (apply occupiedAt_true; exists a; tauto).
  congruence.
Qed.

(** X2: in every reachable state no two blocks lie within 1 of each other
    in both coordinates, so no two blocks occupy one grid cell. *)
Theorem reachable_blocks_in_distinct_cells (w : World) :
  reachable w -> pairwise (fun a b => ~ sameCell a b) (blocks (gs w)).
Proof.
  induction 1 as [|w _ _|w t _ IH|w tx ty _ IH].
  - exact I.
  - exact I.
  - apply gameLoop_blocks_keep; [|exact IH].
    intros k l. apply pairwise_splice1.
  - destruct (handleArenaTap_cases tx ty w) as [->|[->|(_ & _ & Ho & ->)]];
      try exact IH.
    cbn [blocks set_blocks]. apply pairwise_snoc; [exact IH|].
    apply occupiedAt_false in Ho. exact Ho.
Qed.

Lemma pairwise_lt_NoDup (l : list Z) : pairwise Z.lt l -> NoDup l.
Proof.
  induction l as [|a rest IH]; intros H; constructor.
  - destruct H as [Ha _]. intros Hin.
    rewrite Forall_forall in Ha. specialize (Ha a Hin). lia.
  - apply IH, H.
Qed.

Lemma pairwise_map {A B : Type} (f : A -> B) (R : B -> B -> Prop)
    (l : list A) :
  pairwise (fun a b => R (f a) (f b)) l -> pairwise R (map f l).
Proof.
  induction l as [|a rest IH]; intros H; cbn; [exact I|].
  destruct H as [Ha Hr]. split; [|apply IH, Hr].
  apply Forall_map. exact Ha.
Qed.

(** X3: in every reachable state the identifiers of the blocks are
    positive, bounded by the counter and strictly increasing along the
    list; no identifier occurs twice. *)
Theorem reachable_block_ids_unique (w : World) :
  reachable w ->
  idsInOrder (gs w) /\ NoDup (map blk_id (blocks (gs w))).
Proof.
  intros Hr.
  assert (H : idsInOrder (gs w)).
  { induction Hr as [|w _ _|w t _ IH|w tx ty _ IH].
    - repeat split; cbn; try lia; constructor.
    - repeat split; cbn; try lia; constructor.
    - destruct IH as (Hc & Hb & Hp). unfold idsInOrder.
      assert (Hk : blockIdCounter (gs (gameLoop t w)) = blockIdCounter (gs w)).
      { destruct (GamePhase_eqb (phase (gs w)) PLAYING) eqn:E.
        - apply GamePhase_eqb_eq in E. apply gameLoop_loop_fields, E.
        - rewrite gameLoop_not_playing; [reflexivity|].
          intros Hq. rewrite Hq in E. discriminate. }
      rewrite Hk. split; [exact Hc|]. split.
      + apply (gameLoop_blocks_keep
                 (Forall (fun a => (0 < blk_id a <= blockIdCounter (gs w))%Z)));
          [|exact Hb].
        intros k l. apply Forall_splice1.
      + apply gameLoop_blocks_keep; [|exact Hp].
        intros k l. apply pairwise_splice1.
    - destruct (handleArenaTap_cases tx ty w) as [->|[->|(_ & _ & _ & ->)]];
        try exact IH.
      destruct IH as (Hc & Hb & Hp). unfold idsInOrder.
      cbn [blocks blockIdCounter set_blocks set_blockIdCounter set_energy].
      split; [lia|]. split.
      + apply Forall_app. split.
        * eapply Forall_impl; [|exact Hb]. cbn. intros a Ha. lia.
        * constructor; [cbn; lia|constructor].
      + apply pairwise_snoc; [exact Hp|].
        eapply Forall_impl; [|exact Hb]. cbn. intros a Ha. lia. }
  split; [exact H|].
  apply pairwise_lt_NoDup, pairwise_map. apply H.
Qed.

(** X4: in every reachable state the score is 10 times the number of blocks
    placed in the session that no longer stand: the identifier counter
    minus the number of blocks. *)
Theorem reachable_score_counts_destroyed_blocks (w : World) :
  reachable w ->
  score (gs w) =
    (10 * (blockIdCounter (gs w) - Z.of_nat (List.length (blocks (gs w)))))%Z
  /\ (0 <= score (gs w))%Z
  /\ (Z.of_nat (List.length (blocks (gs w))) <= blockIdCounter (gs w))%Z.
Proof.
  intros Hr.
  assert (H : score (gs w) =
    (10 * (blockIdCounter (gs w) - Z.of_nat (List.length (blocks (gs w)))))%Z
    /\ (Z.of_nat (List.length (blocks (gs w))) <= blockIdCounter (gs w))%Z).
  { induction Hr as [|w _ _|w t _ IH|w tx ty _ IH].
    - cbn. lia.
    - cbn. lia.
    - pose proof (gameLoop_score_blocks t w) as (H1 & _ & H3).
      assert (Hk : blockIdCounter (gs (gameLoop t w)) = blockIdCounter (gs w)).
      { destruct (GamePhase_eqb (phase (gs w)) PLAYING) eqn:E.
        - apply GamePhase_eqb_eq in E. apply gameLoop_loop_fields, E.
        - rewrite gameLoop_not_playing; [reflexivity|].
          intros Hq. rewrite Hq in E. discriminate. }
      rewrite Hk, H3. lia.
    - destruct (handleArenaTap_cases tx ty w) as [->|[->|(_ & _ & _ & ->)]];
        try exact IH.
      cbn [blocks blockIdCounter score set_blocks set_blockIdCounter
           set_energy].
      rewrite length_app. cbn [List.length]. lia. }
  destruct H as [H1 H2]. repeat split; [exact H1| lia | exact H2].
Qed.

(** ** Phase and health *)

Lemma stepBall_playingOrOver (factor : R) (b : Ball) (w : World) :
  playingOrOver w -> playingOrOver (snd (stepBall factor b w)).
Proof.
  intros H. unfold playingOrOver in *.
  destruct (breaches (bounceWalls (integrate factor b))) eqn:Hb.
  - rewrite (stepBall_breach factor b w Hb). cbn [snd gs set_rngCalls].
    rewrite handleCoreDamage_health, handleCoreDamage_phase.
    destruct (Z.max 0 (health (gs w) - 1) <=? 0)%Z eqn:E.
    + apply Z.leb_le in E. right. split; [reflexivity|lia].
    + apply Z.leb_gt in E. left. split; [|exact E].
      destruct H as [[Hp _]|[_ Hh]]; [exact Hp|lia].
  - rewrite (stepBall_no_breach factor b w Hb).
    destruct (findHit _ _ _) as [[i b2]|]; exact H.
Qed.

Lemma gameLoop_playingOrOver (t : R) (w : World) :
  playingOrOver w -> playingOrOver (gameLoop t w).
Proof.
  intros H.
  destruct (GamePhase_eqb (phase (gs w)) PLAYING) eqn:E.
  - apply GamePhase_eqb_eq in E. unfold playingOrOver.
    destruct (gameLoop_loop_fields t w E) as (_ & _ & -> & -> & _).
    apply (forBalls_keeps playingOrOver stepBall_playingOrOver).
    unfold playingOrOver.
    destruct (beforeBalls_frame t w) as (_ & _ & -> & _ & ->). exact H.
  - rewrite gameLoop_not_playing; [exact H|].
    intros Hp. rewrite Hp in E. discriminate.
Qed.

Lemma handleArenaTap_phase_health (tapX tapY : R) (w : World) :
  phase (gs (handleArenaTap tapX tapY w)) = phase (gs w) /\
  health (gs (handleArenaTap tapX tapY w)) = health (gs w) /\
  balls (gs (handleArenaTap tapX tapY w)) = balls (gs w) /\
  wave (gs (handleArenaTap tapX tapY w)) = wave (gs w) /\
  speed (gs (handleArenaTap tapX tapY w)) = speed (gs w).
Proof.
  destruct (handleArenaTap_cases tapX tapY w) as [->|[->|(_ & _ & _ & ->)]];
    cbn; tauto.
Qed.

Lemma handleArenaTap_idle (tapX tapY : R) (w : World) :
  phase (gs w) <> PLAYING -> handleArenaTap tapX tapY w = w.
Proof.
  intros H. unfold handleArenaTap.
  apply not_playing_iff in H. rewrite H. reflexivity.
Qed.

(** X5: in every reachable state the phase is DEAD exactly when health is
    0; a Playing session has health left, and while the phase is IDLE the
    state is still the initial one. *)
Theorem reachable_game_over_iff_no_health (w : World) :
  reachable w ->
  phaseMatchesHealth (gs w) /\
  (phase (gs w) = DEAD <-> health (gs w) = 0%Z).
Proof.
  intros Hr.
  assert (H : phaseMatchesHealth (gs w)).
  { induction Hr as [|w _ _|w t _ IH|w tx ty _ IH].
    - reflexivity.
    - unfold phaseMatchesHealth; cbn. unfold MAX_HEALTH. lia.
    - unfold phaseMatchesHealth in *.
      destruct (phase (gs w)) eqn:Hp.
      + rewrite gameLoop_not_playing by (rewrite Hp; discriminate).
        rewrite Hp. exact IH.
      + assert (K : playingOrOver (gameLoop t w))
          by (apply gameLoop_playingOrOver; left; tauto).
        destruct K as [[-> K]|[-> K]]; exact K.
      + rewrite gameLoop_not_playing by (rewrite Hp; discriminate).
        rewrite Hp. exact IH.
    - unfold phaseMatchesHealth in *.
      destruct (handleArenaTap_phase_health tx ty w) as (Hp & Hh & _).
      rewrite Hp, Hh.
      destruct (phase (gs w)) eqn:Hq; try exact IH.
      rewrite handleArenaTap_idle by (rewrite Hq; discriminate). exact IH. }
  split; [exact H|].
  unfold phaseMatchesHealth in H.
  destruct (phase (gs w)) eqn:Hp.
  - rewrite H. cbn. unfold MAX_HEALTH. split; [discriminate|lia].
  - split; [discriminate|lia].
  - split; [intros _; exact H|reflexivity].
Qed.

(** ** Waves, balls and speed *)

Lemma escalationStep_ledger (t : R) (w : World) :
  escalationLedger (gs w) -> escalationLedger (gs (escalationStep t w)).
Proof.
  intros (Hn & Hw & Hlt & Heq & Hgt). unfold escalationLedger.
  destruct (escalationDue t (gs w)) eqn:Hd.
  - rewrite escalationStep_wave, Hd.
    destruct (Nat.lt_ge_cases (List.length (balls (gs w))) 3) as [Hl|Hl].
    + destruct (escalationStep_spawn t w Hd Hl) as (-> & -> & _).
      rewrite length_app. cbn [List.length].
      specialize (Hlt Hl).
      repeat split; try lia.
      intros _. apply Heq, Hlt.
    + destruct (escalationStep_speed_up t w Hd Hl) as (-> & -> & _).
      rewrite length_map.
      assert (Hge : INITIAL_SPEED <= speed (gs w)).
      { destruct (Z.eq_dec (wave (gs w))
                    (Z.of_nat (List.length (balls (gs w))))) as [E|E].
        - rewrite (Heq E). lra.
        - apply Rlt_le, Hgt. lia. }
      repeat split; try lia.
      intros _. unfold SPEED_STEP. lra.
  - rewrite escalationStep_not_due by exact Hd. repeat split; tauto.
Qed.

Lemma gameLoop_ledger (t : R) (w : World) :
  escalationLedger (gs w) -> escalationLedger (gs (gameLoop t w)).
Proof.
  intros H.
  destruct (GamePhase_eqb (phase (gs w)) PLAYING) eqn:E.
  - apply GamePhase_eqb_eq in E. unfold escalationLedger.
    destruct (gameLoop_clock_fields t w E) as (_ & _ & -> & _ & -> & _).
    rewrite (gameLoop_balls t w E), forBalls_length.
    apply escalationStep_ledger. unfold escalationLedger in *.
    cbn [gs set_gs].
    destruct (regenStep_frame t (gs w))
      as (-> & _ & _ & _ & -> & -> & _).
    exact H.
  - rewrite gameLoop_not_playing; [exact H|].
    intros Hp. rewrite Hp in E. discriminate.
Qed.

(** X6: in every reachable state of a started session there are between 1
    and 3 balls, the wave is at least the number of balls and equals it
    while fewer than 3 are live, the speed is INITIAL_SPEED as long as the
    wave equals the number of balls, and above it once the wave exceeds
    the number of balls. *)
Theorem reachable_waves_balls_and_speed (w : World) :
  reachable w -> phase (gs w) <> IDLE -> escalationLedger (gs w).
Proof.
  induction 1 as [|w _ _|w t _ IH|w tx ty _ IH]; intros Hp.
  - exfalso. apply Hp. reflexivity.
  - unfold escalationLedger; cbn. repeat split; try lia.
  - destruct (phase (gs w)) eqn:Hq.
    + exfalso. apply Hp.
      rewrite gameLoop_not_playing by (rewrite Hq; discriminate). exact Hq.
    + apply gameLoop_ledger, IH. discriminate.
    + apply gameLoop_ledger, IH. discriminate.
  - destruct (handleArenaTap_phase_health tx ty w)
      as (Hph & _ & Hb & Hw & Hs).
    unfold escalationLedger in *. rewrite Hb, Hw, Hs. apply IH.
    rewrite <- Hph. exact Hp.
Qed.

(** X7: in every reachable state every block fills one grid cell: its
    origin is an integer multiple of the cell size in both directions and
    its size is cellW by BLOCK_H. *)
Theorem reachable_blocks_on_grid (w : World) :
  reachable w -> Forall onGrid (blocks (gs w)).
Proof.
  induction 1 as [|w _ _|w t _ IH|w tx ty _ IH].
  - constructor.
  - constructor.
  - apply gameLoop_blocks_keep; [|exact IH].
    intros k l. apply Forall_splice1.
  - destruct (handleArenaTap_cases tx ty w) as [->|[->|(_ & _ & _ & ->)]];
      try exact IH.
    cbn [blocks set_blocks]. apply Forall_app. split; [exact IH|].
    constructor; [|constructor].
    exists (Zfloor (tx / cellW)), (Zfloor (ty / BLOCK_H)).
    cbn. unfold snapX, snapY. tauto.
Qed.

(** ** Walls *)

Lemma bounceWalls_eq (b : Ball) :
  bounceWalls b =
  mkBall
    (if Rleb arenaW
          ((if Rleb (ball_x b - ball_radius b) 0
            then ball_radius b else ball_x b) + ball_radius b)
     then arenaW - ball_radius b
     else if Rleb (ball_x b - ball_radius b) 0
          then ball_radius b else ball_x b)
    (if Rleb (ball_y b - ball_radius b) 0 then ball_radius b else ball_y b)
    (if Rleb arenaW
          ((if Rleb (ball_x b - ball_radius b) 0
            then ball_radius b else ball_x b) + ball_radius b)
     then - Rabs (if Rleb (ball_x b - ball_radius b) 0
                  then Rabs (ball_vx b) else ball_vx b)
     else if Rleb (ball_x b - ball_radius b) 0
          then Rabs (ball_vx b) else ball_vx b)
    (if Rleb (ball_y b - ball_radius b) 0
     then Rabs (ball_vy b) else ball_vy b)
    (ball_color b) (ball_radius b).
Proof.
  destruct b as [bx by_ bvx bvy bc br]. unfold bounceWalls; cbn.
  destruct (Rleb (bx - br) 0); cbn;
    (match goal with |- context [Rleb arenaW ?e] =>
       destruct (Rleb arenaW e); cbn end);
    destruct (Rleb (by_ - br) 0); reflexivity.
Qed.

(** Splits on the three wall tests and on the signs of the velocity. *)
Ltac wall_cases bx by_ bvx bvy br :=
  rewrite ?Rabs_Rabsolu;
  destruct (Rleb arenaW ((if Rleb (bx - br) 0 then br else bx) + br)) eqn:?E;
  destruct (Rleb (bx - br) 0) eqn:?E;
  destruct (Rleb (by_ - br) 0) eqn:?E;
  repeat match goal with
    | E : Rleb _ _ = true |- _ => apply Rleb_true in E
    | E : Rleb _ _ = false |- _ => apply Rleb_false in E
    end;
  rewrite ?Rabs_Rabsolu;
  unfold Rabs in *;
  destruct (Rcase_abs bvx); destruct (Rcase_abs bvy).

(** X8: in an arena at least one diameter wide, a ball leaves the wall test
    with its centre at least one radius from the left, right and top walls;
    a ball that was at or past a wall leaves it with its velocity pointing
    into the arena, and a second pass changes nothing when the arena is
    wider than a diameter. *)
Theorem bounceWalls_keeps_ball_inside (b : Ball) :
  ball_radius b * 2 <= arenaW ->
  ball_radius b <= ball_x (bounceWalls b) <= arenaW - ball_radius b /\
  ball_radius b <= ball_y (bounceWalls b) /\
  (ball_x b - ball_radius b <= 0 -> ball_radius b * 2 < arenaW ->
   0 <= ball_vx (bounceWalls b)) /\
  (arenaW <= ball_x b + ball_radius b -> ball_vx (bounceWalls b) <= 0) /\
  (ball_y b - ball_radius b <= 0 -> 0 <= ball_vy (bounceWalls b)) /\
  (ball_radius b * 2 < arenaW ->
   bounceWalls (bounceWalls b) = bounceWalls b).
Proof.
  intros Hw.
  destruct b as [bx by_ bvx bvy bc br]. cbn in Hw |- *.
  split; [|split; [|split; [|split; [|split]]]].
  - rewrite bounceWalls_eq; cbn. wall_cases bx by_ bvx bvy br; lra.
  - rewrite bounceWalls_eq; cbn. wall_cases bx by_ bvx bvy br; lra.
  - intros H1 H2. rewrite bounceWalls_eq; cbn.
    wall_cases bx by_ bvx bvy br; lra.
  - intros H1. rewrite bounceWalls_eq; cbn.
    wall_cases bx by_ bvx bvy br; lra.
  - intros H1. rewrite bounceWalls_eq; cbn.
    wall_cases bx by_ bvx bvy br; lra.
  - intros Hlt.
    rewrite (bounceWalls_eq (bounceWalls _)).
    rewrite (bounceWalls_eq (mkBall bx by_ bvx bvy bc br)); cbn.
    rewrite ?Rabs_Rabsolu.
    wall_cases bx by_ bvx bvy br;
      repeat match goal with
      | |- context [Rleb ?a ?c] =>
          first [ rewrite (proj2 (Rleb_true a c)) by lra
                | rewrite (proj2 (Rleb_false a c)) by lra ]
      end;
      f_equal; try lra;
      repeat match goal with
      | |- context [Rcase_abs ?a] => destruct (Rcase_abs a)
      end; lra.
Qed.

(** ** Launching a ball *)

Lemma sin_launchAngle_half (u : R) :
  0 <= u < 1 -> 1 / 2 <= sin (launchAngle u) <= 1.
Proof.
  intros Hu. pose proof PI_RGT_0 as Hpi.
  assert (Hlo : PI / 6 <= launchAngle u) by (unfold launchAngle; nra).
  assert (Hhi : launchAngle u <= 5 * (PI / 6)) by (unfold launchAngle; nra).
  split; [|apply SIN_bound].
  rewrite <- sin_PI6.
  destruct (Rle_dec (launchAngle u) (PI / 2)) as [Hle|Hgt].
  - apply sin_incr_1; lra.
  - rewrite <- (sin_PI_x (launchAngle u)).
    apply sin_incr_1; lra.
Qed.

(** X9: with draws in [0, 1) and a positive speed, a ball made by makeBall
    starts inside the arena walls in the band 33 <= y <= 93, and both made
    and respawned balls head down and steeper than sideways: vy lies
    between 0.49 and 1 times the speed and |vx| is at most 0.87 times the
    speed. *)
Theorem launched_ball_heads_down (spd : R) (colorIdx n : nat) (b : Ball) :
  (forall i : nat, 0 <= rand i < 1) ->
  0 < spd ->
  (BALL_RADIUS * 2 <= arenaW ->
   BALL_RADIUS <= ball_x (makeBall spd colorIdx n)
     <= arenaW - BALL_RADIUS) /\
  BALL_RADIUS + 20 <= ball_y (makeBall spd colorIdx n) <= BALL_RADIUS + 80 /\
  ball_radius (makeBall spd colorIdx n) = BALL_RADIUS /\
  spd * 0.49 <= ball_vy (makeBall spd colorIdx n) <= spd /\
  Rabs (ball_vx (makeBall spd colorIdx n)) <= spd * 0.87 /\
  spd * 0.49 <= ball_vy (respawn spd n b) <= spd /\
  Rabs (ball_vx (respawn spd n b)) <= spd * 0.87 /\
  In (ball_color (makeBall spd colorIdx n)) BALL_COLORS.
Proof.
  intros Hrand Hs.
  assert (Hvy : forall a : R, 1 / 2 <= sin a <= 1 ->
                  spd * 0.49 <= Rabs (sin a * spd) <= spd).
  { intros a Ha. rewrite Rabs_pos_eq by nra. nra. }
  assert (Hvx : forall (a u : R), 1 / 2 <= sin a <= 1 ->
                  Rabs (cos a * spd * randomSign u) <= spd * 0.87).
  { intros a u Ha.
    pose proof (sin2_cos2 a) as Hsc. unfold Rsqr in Hsc.
    assert (Hc : Rabs (cos a) <= 0.87).
    { unfold Rabs. destruct (Rcase_abs (cos a)); nra. }
    assert (Hsg : Rabs (randomSign u) = 1).
    { unfold randomSign. destruct (Rltb 0.5 u);
        [apply Rabs_pos_eq; lra|rewrite Rabs_left; lra]. }
    rewrite !Rabs_mult, Hsg, (Rabs_pos_eq spd) by lra.
    pose proof (Rabs_pos (cos a)). nra. }
  split.
  { intros Hw. unfold makeBall; cbn.
    pose proof (Hrand (n + 2)%nat). unfold BALL_RADIUS in *. nra. }
  split.
  { unfold makeBall; cbn. pose proof (Hrand (n + 3)%nat).
    unfold BALL_RADIUS. lra. }
  split; [reflexivity|].
  split.
  { unfold makeBall; cbn. apply Hvy, sin_launchAngle_half, Hrand. }
  split.
  { unfold makeBall; cbn. apply Hvx, sin_launchAngle_half, Hrand. }
  split.
  { unfold respawn; cbn. apply Hvy, sin_launchAngle_half, Hrand. }
  split.
  { unfold respawn; cbn. apply Hvx, sin_launchAngle_half, Hrand. }
  unfold makeBall; cbn [ball_color].
  apply nth_In. cbn [BALL_COLORS List.length].
  apply Nat.mod_upper_bound. discriminate.
Qed.

(** ** Where a tap puts its block *)

Lemma snap_bounds (c q : R) :
  0 < c ->
  IZR (Zfloor (q / c)) * c <= q < IZR (Zfloor (q / c)) * c + c.
Proof.
  intros Hc. pose proof (Zfloor_bound (q / c)) as [Hlo Hhi].
  assert (Hq : q = q / c * c) by (field; lra).
  split.
  - rewrite Hq at 2. apply Rmult_le_compat_r; lra.
  - rewrite Hq at 1.
    replace (IZR (Zfloor (q / c)) * c + c)
      with ((IZR (Zfloor (q / c)) + 1) * c) by ring.
    apply Rmult_lt_compat_r; lra.
Qed.

(** X10: in an arena of positive width, a tap that is not rejected appends
    one block whose rectangle contains the tap point; when the tap lies
    within the width of the arena the block lies within it too, in one of
    the COLS columns. *)
Theorem placed_block_covers_the_tap (tapX tapY : R) (w : World) :
  0 < arenaW ->
  ~ tapRejected tapX tapY w ->
  exists blk : Block,
    blocks (gs (handleArenaTap tapX tapY w)) = blocks (gs w) ++ [blk] /\
    blk_x blk <= tapX < blk_x blk + blk_w blk /\
    blk_y blk <= tapY < blk_y blk + blk_h blk /\
    (0 <= tapX < arenaW ->
     0 <= blk_x blk /\ blk_x blk + blk_w blk <= arenaW /\
     exists col : Z, (0 <= col < 8)%Z /\ blk_x blk = IZR col * cellW).
Proof.
  intros Hw Hn. rewrite (handleArenaTap_placed tapX tapY w Hn).
  eexists. split; [reflexivity|]. cbn.
  assert (Hc : 0 < cellW) by (unfold cellW, COLS; lra).
  split; [apply snap_bounds, Hc|].
  split; [apply snap_bounds; unfold BLOCK_H; lra|].
  intros Ht. unfold snapX.
  pose proof (Zfloor_bound (tapX / cellW)) as [Hlo Hhi].
  assert (Hq0 : 0 <= tapX / cellW).
  { apply Rmult_le_pos; [lra|]. apply Rlt_le, Rinv_0_lt_compat, Hc. }
  assert (Hq8 : tapX / cellW < 8).
  { unfold cellW, COLS in *. apply Rmult_lt_reg_r with (arenaW / 8); [lra|].
    replace (tapX / (arenaW / 8) * (arenaW / 8)) with tapX by (field; lra).
    lra. }
  assert (Hk0 : (0 <= Zfloor (tapX / cellW))%Z)
    by (apply Zfloor_lub; exact Hq0).
  assert (Hk8 : (Zfloor (tapX / cellW) < 8)%Z) by (apply lt_IZR; lra).
  assert (Hk7 : IZR (Zfloor (tapX / cellW)) <= 7)
    by (apply IZR_le; lia).
  apply IZR_le in Hk0.
  split; [apply Rmult_le_pos; lra|].
  split.
  - assert (arenaW = 8 * cellW) by (unfold cellW, COLS; field).
    nra.
  - exists (Zfloor (tapX / cellW)). split; [|reflexivity].
    split; [apply le_IZR; lra|exact Hk8].
Qed.

Lemma occupiedAt_snoc_self (bx by_ : R) (bls : list Block) (blk : Block) :
  blk_x blk = bx -> blk_y blk = by_ ->
  occupiedAt bx by_ (bls ++ [blk]) = true.
Proof.
  intros Hx Hy. unfold occupiedAt. rewrite existsb_app. cbn.
  rewrite Hx, Hy. unfold Rminus. rewrite !Rplus_opp_r, Rabs_R0.
  rewrite (proj2 (Rltb_true 0 1)) by lra.
  apply orb_true_r.
Qed.

(** X11: tapping the same point twice in a row never places a second
    block: after the first tap, the second leaves the session state as it
    is. *)
Theorem second_tap_on_same_point_is_rejected (tapX tapY : R) (w : World) :
  gs (handleArenaTap tapX tapY (handleArenaTap tapX tapY w)) =
  gs (handleArenaTap tapX tapY w).
Proof.
  destruct (negb (GamePhase_eqb (phase (gs w)) PLAYING)) eqn:Hp.
  { assert (H : handleArenaTap tapX tapY w = w)
      by (unfold handleArenaTap; rewrite Hp; reflexivity).
    rewrite !H. reflexivity. }
  destruct (energy (gs w) <=? 0)%Z eqn:He.
  { assert (H : handleArenaTap tapX tapY w = emit (hapticNotify NWarning) w)
      by (unfold handleArenaTap; rewrite Hp, He; reflexivity).
    rewrite H. unfold handleArenaTap. cbn [gs emit].
    rewrite Hp, He. reflexivity. }
  destruct (occupiedAt (snapX tapX) (snapY tapY) (blocks (gs w))) eqn:Ho.
  { assert (H : handleArenaTap tapX tapY w = w)
      by (unfold handleArenaTap; rewrite Hp, He, Ho; reflexivity).
    rewrite !H. reflexivity. }
  assert (H : handleArenaTap tapX tapY w =
    emit (hapticImpact ILight)
      (set_rngCalls (rngCalls w + 1)
         (set_gs
            (set_blocks
               (blocks (gs w) ++
                [mkBlock (blockIdCounter (gs w) + 1) (snapX tapX)
                   (snapY tapY) cellW BLOCK_H
                   (randomBlockColor (rand (rngCalls w)))])
               (set_blockIdCounter (blockIdCounter (gs w) + 1)
                  (set_energy (energy (gs w) - 1) (gs w)))) w)))
    by (unfold handleArenaTap; rewrite Hp, He, Ho; reflexivity).
  rewrite H. unfold handleArenaTap.
  cbn [gs emit set_rngCalls set_gs phase energy blocks set_blocks
       set_blockIdCounter set_energy].
  rewrite Hp.
  destruct (energy (gs w) - 1 <=? 0)%Z; [reflexivity|].
  rewrite occupiedAt_snoc_self by reflexivity. reflexivity.
Qed.

(** ** Ticks close together *)

Lemma gameLoop_energy_quiet (t : R) (w : World) :
  t - lastEnergyRegen (gs w) < ENERGY_REGEN_MS ->
  energy (gs (gameLoop t w)) = energy (gs w).
Proof.
  intros H.
  destruct (GamePhase_eqb (phase (gs w)) PLAYING) eqn:E.
  - apply GamePhase_eqb_eq in E.
    destruct (gameLoop_clock_fields t w E) as (-> & _).
    unfold regenStep. rewrite (proj2 (Rleb_false _ _) H). reflexivity.
  - rewrite gameLoop_not_playing; [reflexivity|].
    intros Hp. rewrite Hp in E. discriminate.
Qed.

Lemma gameLoop_wave_cases (t : R) (w : World) :
  wave (gs (gameLoop t w)) = wave (gs w) \/
  (wave (gs (gameLoop t w)) = (wave (gs w) + 1)%Z /\
   lastEscalation (gs (gameLoop t w)) = t).
Proof.
  destruct (GamePhase_eqb (phase (gs w)) PLAYING) eqn:E.
  - apply GamePhase_eqb_eq in E.
    destruct (gameLoop_clock_fields t w E) as (_ & _ & -> & -> & _).
    unfold beforeBalls. rewrite escalationStep_wave, escalationStep_stamp.
    cbn [gs set_gs].
    destruct (regenStep_frame t (gs w)) as (_ & _ & _ & _ & -> & _).
    destruct (escalationDue t (regenStep t (gs w))); [right|left]; tauto.
  - rewrite gameLoop_not_playing; [left; reflexivity|].
    intros Hp. rewrite Hp in E. discriminate.
Qed.

Lemma gameLoop_wave_quiet (t : R) (w : World) :
  t - lastEscalation (gs w) < ESCALATION_MS ->
  wave (gs (gameLoop t w)) = wave (gs w).
Proof.
  intros H.
  destruct (GamePhase_eqb (phase (gs w)) PLAYING) eqn:E.
  - apply GamePhase_eqb_eq in E.
    destruct (gameLoop_clock_fields t w E) as (_ & _ & -> & _).
    unfold beforeBalls. rewrite escalationStep_wave. cbn [gs set_gs].
    destruct (regenStep_frame t (gs w)) as (_ & _ & _ & _ & -> & _ & Hl & _).
    unfold escalationDue. rewrite Hl.
    rewrite (proj2 (Rleb_false _ _) H). reflexivity.
  - rewrite gameLoop_not_playing; [reflexivity|].
    intros Hp. rewrite Hp in E. discriminate.
Qed.

(** X12: two consecutive ticks less than ENERGY_REGEN_MS apart give at
    most one unit of energy between them, and two consecutive ticks less
    than ESCALATION_MS apart raise the wave by at most one. *)
Theorem close_ticks_fire_once (t t' : R) (w : World) :
  (t' - t < ENERGY_REGEN_MS ->
   (energy (gs (gameLoop t' (gameLoop t w))) <= energy (gs w) + 1)%Z) /\
  (t' - t < ESCALATION_MS ->
   (wave (gs (gameLoop t' (gameLoop t w))) <= wave (gs w) + 1)%Z).
Proof.
  split; intros H.
  - destruct (gameLoop_energy t w) as [H1|(H1 & _ & Hs)].
    + destruct (gameLoop_energy t' (gameLoop t w)) as [H2|(H2 & _)];
        rewrite H2, H1; lia.
    + rewrite gameLoop_energy_quiet by (rewrite Hs; exact H).
      rewrite H1. lia.
  - destruct (gameLoop_wave_cases t w) as [H1|(H1 & Hs)].
    + destruct (gameLoop_wave_cases t' (gameLoop t w)) as [H2|(H2 & _)];
        rewrite H2, H1; lia.
    + rewrite gameLoop_wave_quiet by (rewrite Hs; exact H).
      rewrite H1. lia.
Qed.

(** ** What a tick never does *)

Lemma forBalls_health_floor (factor : R) (bs : list Ball) (w : World) :
  (health (gs w) - Z.of_nat (List.length bs)
   <= health (gs (snd (forBalls factor bs w))))%Z.
Proof.
  revert w; induction bs as [|b rest IH]; intros w.
  - cbn. lia.
  - rewrite forBalls_cons. cbn [snd].
    specialize (IH (snd (stepBall factor b w))).
    pose proof (stepBall_health factor b w) as Hb.
    cbn [List.length]. lia.
Qed.

(** X13: a tick never removes a ball and adds at most one, never lowers
    the speed and raises it by at most SPEED_STEP, takes at most one unit
    of health per ball, never gives health back, and leaves the
    identifier counter alone. *)
Theorem tick_changes_are_one_sided (t : R) (w : World) :
  (List.length (balls (gs w)) <= List.length (balls (gs (gameLoop t w)))
     <= S (List.length (balls (gs w))))%nat /\
  speed (gs w) <= speed (gs (gameLoop t w)) <= speed (gs w) + SPEED_STEP /\
  (health (gs w) - Z.of_nat (List.length (balls (gs (gameLoop t w))))
     <= health (gs (gameLoop t w)))%Z /\
  ((0 <= health (gs w))%Z ->
   (health (gs (gameLoop t w)) <= health (gs w))%Z) /\
  blockIdCounter (gs (gameLoop t w)) = blockIdCounter (gs w).
Proof.
  destruct (GamePhase_eqb (phase (gs w)) PLAYING) eqn:E.
  - apply GamePhase_eqb_eq in E.
    destruct (gameLoop_clock_fields t w E) as (_ & _ & _ & _ & -> & _).
    destruct (gameLoop_loop_fields t w E) as (_ & _ & -> & _ & ->).
    rewrite (gameLoop_balls t w E), forBalls_length.
    pose proof (forBalls_health_floor (frameFactor (lastFrame w) t)
                  (balls (gs (beforeBalls t w))) (beforeBalls t w)) as Hf.
    pose proof (forBalls_health_range (frameFactor (lastFrame w) t)
                  (balls (gs (beforeBalls t w))) (beforeBalls t w)) as Hr.
    destruct (beforeBalls_frame t w) as (_ & _ & Hh & _).
    rewrite Hh in Hf, Hr.
    assert (Hbs :
      (List.length (balls (gs w))
         <= List.length (balls (gs (beforeBalls t w)))
         <= S (List.length (balls (gs w))))%nat /\
      speed (gs w) <= speed (gs (beforeBalls t w))
        <= speed (gs w) + SPEED_STEP).
    { unfold beforeBalls.
      set (w1 := set_gs (regenStep t (gs w)) (set_lastFrame t w)).
      destruct (regenStep_frame t (gs w))
        as (Hb & _ & _ & _ & _ & Hs & _).
      assert (Hb1 : balls (gs w1) = balls (gs w)) by exact Hb.
      assert (Hs1 : speed (gs w1) = speed (gs w)) by exact Hs.
      rewrite <- Hb1, <- Hs1.
      destruct (escalationDue t (gs w1)) eqn:Hd.
      - destruct (Nat.lt_ge_cases (List.length (balls (gs w1))) 3)
          as [Hl|Hl].
        + destruct (escalationStep_spawn t w1 Hd Hl) as (-> & -> & _).
          rewrite length_app. cbn [List.length]. unfold SPEED_STEP.
          split; [lia|lra].
        + destruct (escalationStep_speed_up t w1 Hd Hl) as (-> & -> & _).
          rewrite length_map. unfold SPEED_STEP. split; [lia|lra].
      - rewrite escalationStep_not_due by exact Hd.
        unfold SPEED_STEP. split; [lia|lra]. }
    destruct Hbs as [Hb Hs].
    repeat split; try lia; try lra; try apply Hs.
  - rewrite gameLoop_not_playing
      by (intros Hp; rewrite Hp in E; discriminate).
    unfold SPEED_STEP. repeat split; try lia; try lra.
Qed.

(** ** The heads-up display *)

Lemma filter_map_length {A B : Type} (p : B -> bool) (f : A -> B)
    (l : list A) :
  List.length (filter p (map f l))
  = List.length (filter (fun x => p (f x)) l).
Proof.
  induction l as [|a rest IH]; cbn; [reflexivity|].
  destruct (p (f a)); cbn; congruence.
Qed.

Lemma count_below (count : Z) (n : nat) :
  List.length (filter (fun i : nat => (Z.of_nat i <? count)%Z) (seq 0 n))
  = Nat.min n (Z.to_nat count).
Proof.
  induction n as [|n IH]; [reflexivity|].
  rewrite seq_S, filter_app, length_app, IH. cbn [filter Nat.add].
  destruct (Z.of_nat n <? count)%Z eqn:E; cbn [List.length].
  - apply Z.ltb_lt in E. lia.
  - apply Z.ltb_ge in E. lia.
Qed.

Lemma pips_lit (f : nat -> Pip) (a : string) (count : Z) (n : nat) :
  (forall i : nat, lit a (f i) = (Z.of_nat i <? count)%Z) ->
  (forall i : nat, pip_key (f i) = i) ->
  List.length (map f (seq 0 n)) = n /\
  List.length (filter (lit a) (map f (seq 0 n)))
    = Nat.min n (Z.to_nat count) /\
  forall (i : nat) (p : Pip),
    nth_error (map f (seq 0 n)) i = Some p ->
    pip_key p = i /\ (lit a p = true <-> (Z.of_nat i < count)%Z).
Proof.
  intros Hlit Hkey. split; [rewrite length_map, length_seq; reflexivity|].
  split.
  - rewrite filter_map_length.
    rewrite (filter_ext _ (fun i : nat => (Z.of_nat i <? count)%Z) Hlit).
    apply count_below.
  - intros i p Hn. rewrite nth_error_map, nth_error_seq in Hn.
    destruct (Nat.ltb i n); [|discriminate].
    cbn in Hn. injection Hn as <-.
    rewrite Hkey, Hlit. split; [reflexivity|apply Z.ltb_lt].
Qed.

Lemma reachable_resources (w : World) :
  reachable w ->
  (0 <= energy (gs w) <= 8)%Z /\ (0 <= health (gs w) <= 5)%Z.
Proof.
  induction 1 as [|w _ _|w t _ IH|w tx ty _ IH].
  - cbn. unfold MAX_ENERGY, MAX_HEALTH. lia.
  - cbn. unfold MAX_ENERGY, MAX_HEALTH. lia.
  - destruct IH as [He Hh]. split.
    + destruct (gameLoop_energy t w) as [H|(H & Hlt & _)]; rewrite H;
        unfold MAX_ENERGY in *; lia.
    + pose proof (gameLoop_health_range t w); lia.
  - apply (handleArenaTap_resources tx ty w IH).
Qed.

(** X14: for a reachable state copied by syncUI, the energy row shows
    MAX_ENERGY pips of which exactly the first energy are lit, the core bar
    shows MAX_HEALTH segments of which exactly the first health are lit,
    and the low-energy flag is set exactly when energy is below 2. *)
Theorem hud_shows_energy_and_health (w : World) :
  reachable w ->
  List.length
    (renderPips (ui_energy (syncUI (gs w))) MAX_ENERGY COLORS_energyActive
       COLORS_energyInactive) = 8%nat /\
  List.length
    (filter (lit COLORS_energyActive)
       (renderPips (ui_energy (syncUI (gs w))) MAX_ENERGY
          COLORS_energyActive COLORS_energyInactive))
    = Z.to_nat (energy (gs w)) /\
  (forall (i : nat) (p : Pip),
     nth_error
       (renderPips (ui_energy (syncUI (gs w))) MAX_ENERGY
          COLORS_energyActive COLORS_energyInactive) i = Some p ->
     pip_key p = i /\
     (lit COLORS_energyActive p = true <-> (Z.of_nat i < energy (gs w))%Z)) /\
  List.length (renderHealthSegments (syncUI (gs w))) = 5%nat /\
  List.length
    (filter (lit COLORS_healthActive) (renderHealthSegments (syncUI (gs w))))
    = Z.to_nat (health (gs w)) /\
  (forall (i : nat) (p : Pip),
     nth_error (renderHealthSegments (syncUI (gs w))) i = Some p ->
     pip_key p = i /\
     (lit COLORS_healthActive p = true <-> (Z.of_nat i < health (gs w))%Z)) /\
  (lowEnergy (syncUI (gs w)) = true <-> (energy (gs w) < 2)%Z).
Proof.
  intros Hr.
  assert (Hrange : (0 <= energy (gs w) <= 8)%Z /\ (0 <= health (gs w) <= 5)%Z)
    by exact (reachable_resources w Hr).
  destruct Hrange as [He Hh].
  destruct (pips_lit
              (fun i : nat =>
                 mkPip i
                   (if (Z.of_nat i <? energy (gs w))%Z
                    then COLORS_energyActive else COLORS_energyInactive)
                   (if (Z.of_nat i <? energy (gs w))%Z
                    then COLORS_energyActive else "transparent"%string)
                   (if (Z.of_nat i <? energy (gs w))%Z then 0.8 else 0)
                   (if (Z.of_nat i <? energy (gs w))%Z then 6 else 0))
              COLORS_energyActive (energy (gs w)) 8)
    as (E1 & E2 & E3).
  { intros i. unfold lit; cbn.
    destruct (Z.of_nat i <? energy (gs w))%Z; reflexivity. }
  { reflexivity. }
  destruct (pips_lit
              (fun i : nat =>
                 mkPip i
                   (if (Z.of_nat i <? health (gs w))%Z
                    then COLORS_healthActive else COLORS_healthInactive)
                   (if (Z.of_nat i <? health (gs w))%Z
                    then COLORS_healthActive else "transparent"%string)
                   (if (Z.of_nat i <? health (gs w))%Z then 0.9 else 0)
                   (if (Z.of_nat i <? health (gs w))%Z then 8 else 0))
              COLORS_healthActive (health (gs w)) 5)
    as (H1 & H2 & H3).
  { intros i. unfold lit; cbn.
    destruct (Z.of_nat i <? health (gs w))%Z; reflexivity. }
  { reflexivity. }
  split; [exact E1|]. split; [rewrite <- (Nat.min_r 8 (Z.to_nat (energy (gs w)))) by lia; exact E2|].
  split; [exact E3|]. split; [exact H1|].
  split; [rewrite <- (Nat.min_r 5 (Z.to_nat (health (gs w)))) by lia; exact H2|].
  split; [exact H3|].
  cbn. apply Z.ltb_lt.
Qed.

(** ** The phase as a state machine *)

Lemma stepBall_playing_or_just_over (factor : R) (b : Ball) (w : World) :
  phase (gs w) = PLAYING \/
  (phase (gs w) = DEAD /\ health (gs w) = 0%Z) ->
  phase (gs (snd (stepBall factor b w))) = PLAYING \/
  (phase (gs (snd (stepBall factor b w))) = DEAD /\
   health (gs (snd (stepBall factor b w))) = 0%Z).
Proof.
  intros H.
  destruct (breaches (bounceWalls (integrate factor b))) eqn:Hb.
  - rewrite (stepBall_breach factor b w Hb). cbn [snd gs set_rngCalls].
    rewrite handleCoreDamage_health, handleCoreDamage_phase.
    destruct (Z.max 0 (health (gs w) - 1) <=? 0)%Z eqn:E.
    + apply Z.leb_le in E. right. split; [reflexivity|lia].
    + apply Z.leb_gt in E. destruct H as [H|[_ H]]; [left; exact H|lia].
  - rewrite (stepBall_no_breach factor b w Hb).
    destruct (findHit _ _ _) as [[i b2]|]; exact H.
Qed.

(** X15: a tick either keeps the phase or takes a Playing session to DEAD
    with health 0; a tap never changes the phase; startGame always gives
    Playing; outside Playing, ticks and taps leave the whole world as it
    is. *)
Theorem phase_moves_only_forward (t tapX tapY : R) (w : World) :
  (phase (gs (gameLoop t w)) = phase (gs w) \/
   (phase (gs w) = PLAYING /\ phase (gs (gameLoop t w)) = DEAD /\
    health (gs (gameLoop t w)) = 0%Z)) /\
  phase (gs (handleArenaTap tapX tapY w)) = phase (gs w) /\
  phase (gs (startGame w)) = PLAYING /\
  (phase (gs w) <> PLAYING ->
   gameLoop t w = w /\ handleArenaTap tapX tapY w = w).
Proof.
  split; [|split; [|split]].
  - destruct (GamePhase_eqb (phase (gs w)) PLAYING) eqn:E.
    + apply GamePhase_eqb_eq in E.
      destruct (gameLoop_loop_fields t w E) as (_ & _ & -> & -> & _).
      assert (K : phase (gs (beforeBalls t w)) = PLAYING \/
                  (phase (gs (beforeBalls t w)) = DEAD /\
                   health (gs (beforeBalls t w)) = 0%Z)).
      { left. destruct (beforeBalls_frame t w) as (_ & _ & _ & _ & ->).
        exact E. }
      apply (forBalls_keeps
               (fun w' => phase (gs w') = PLAYING \/
                          (phase (gs w') = DEAD /\ health (gs w') = 0%Z))
               stepBall_playing_or_just_over
               (frameFactor (lastFrame w) t)
               (balls (gs (beforeBalls t w)))) in K.
      rewrite E. destruct K as [K|K]; [left; exact K|right; tauto].
    + left. rewrite gameLoop_not_playing; [reflexivity|].
      intros Hp. rewrite Hp in E. discriminate.
  - apply handleArenaTap_phase_health.
  - reflexivity.
  - intros H. split; [apply gameLoop_not_playing, H|].
    apply handleArenaTap_idle, H.
Qed.

(** ** Which balls hit a block *)

Lemma clamp_between (lo len c : R) :
  0 <= len -> lo <= Rmax lo (Rmin c (lo + len)) <= lo + len.
Proof.
  intros H. unfold Rmax, Rmin.
  destruct (Rle_dec c (lo + len)); destruct (Rle_dec lo _); lra.
Qed.

Lemma clamp_inside (lo len c : R) :
  lo <= c <= lo + len -> Rmax lo (Rmin c (lo + len)) = c.
Proof.
  intros H. rewrite Rmin_left by lra. rewrite Rmax_right by lra.
  reflexivity.
Qed.

Lemma sq_lt_bound (a r : R) : 0 < r -> a * a < r * r -> - r < a < r.
Proof.
  intros Hr H. split; apply Rnot_le_lt; intros Hc.
  - assert (r * r <= (- a) * (- a)) by (apply Rmult_le_compat; lra). lra.
  - assert (r * r <= a * a) by (apply Rmult_le_compat; lra). lra.
Qed.

(** X16: for a block of non-negative size and a ball of positive radius, a
    hit needs the centre of the ball to be less than one radius away from
    the rectangle in both directions, and a ball whose centre lies on the
    rectangle always hits. *)
Theorem hit_needs_the_ball_within_a_radius (c : Ball) (blk : Block) :
  0 <= blk_w blk -> 0 <= blk_h blk -> 0 < ball_radius c ->
  (hits c blk = true ->
   blk_x blk - ball_radius c < ball_x c
     < blk_x blk + blk_w blk + ball_radius c /\
   blk_y blk - ball_radius c < ball_y c
     < blk_y blk + blk_h blk + ball_radius c) /\
  (blk_x blk <= ball_x c <= blk_x blk + blk_w blk ->
   blk_y blk <= ball_y c <= blk_y blk + blk_h blk ->
   hits c blk = true).
Proof.
  intros Hw Hh Hr. split.
  - intros H. apply Rltb_true in H. unfold dist2, nearX, nearY in H.
    cbv zeta in H.
    pose proof (clamp_between (blk_x blk) (blk_w blk) (ball_x c) Hw) as Hx.
    pose proof (clamp_between (blk_y blk) (blk_h blk) (ball_y c) Hh) as Hy.
    set (nx := Rmax (blk_x blk) _) in *. set (ny := Rmax (blk_y blk) _) in *.
    pose proof (Rle_0_sqr (ball_x c - nx)) as Hsx.
    pose proof (Rle_0_sqr (ball_y c - ny)) as Hsy.
    unfold Rsqr in Hsx, Hsy.
    assert (Hdx : (ball_x c - nx) * (ball_x c - nx)
                  < ball_radius c * ball_radius c) by lra.
    assert (Hdy : (ball_y c - ny) * (ball_y c - ny)
                  < ball_radius c * ball_radius c) by lra.
    apply (sq_lt_bound _ _ Hr) in Hdx. apply (sq_lt_bound _ _ Hr) in Hdy.
    split; split; lra.
  - intros Hx Hy. apply Rltb_true. unfold dist2, nearX, nearY. cbv zeta.
    rewrite (clamp_inside _ _ _ Hx), (clamp_inside _ _ _ Hy). nra.
Qed.

(** ** A breach inside a tick *)

Lemma forBalls_app (factor : R) (l1 l2 : list Ball) (w : World) :
  forBalls factor (l1 ++ l2) w =
  (fst (forBalls factor l1 w)
     ++ fst (forBalls factor l2 (snd (forBalls factor l1 w))),
   snd (forBalls factor l2 (snd (forBalls factor l1 w)))).
Proof.
  revert w; induction l1 as [|a rest IH]; intros w.
  - cbn. destruct (forBalls factor l2 w); reflexivity.
  - cbn [app]. rewrite !forBalls_cons, IH. reflexivity.
Qed.

Lemma forBalls_turn (factor : R) (pre post : list Ball) (b : Ball)
    (w : World) :
  forBalls factor (pre ++ b :: post) w =
  (fst (forBalls factor pre w)
     ++ fst (stepBall factor b (snd (forBalls factor pre w)))
     :: fst (forBalls factor post
               (snd (stepBall factor b (snd (forBalls factor pre w))))),
   snd (forBalls factor post
          (snd (stepBall factor b (snd (forBalls factor pre w)))))).
Proof. rewrite forBalls_app, forBalls_cons. reflexivity. Qed.

Lemma beforeBalls_speed_ge (t : R) (w : World) :
  speed (gs w) <= speed (gs (beforeBalls t w)).
Proof.
  unfold beforeBalls.
  set (w1 := set_gs (regenStep t (gs w)) (set_lastFrame t w)).
  assert (Hs1 : speed (gs w1) = speed (gs w))
    by (apply (regenStep_frame t (gs w))).
  rewrite <- Hs1.
  destruct (escalationDue t (gs w1)) eqn:Hd.
  - destruct (Nat.lt_ge_cases (List.length (balls (gs w1))) 3) as [Hl|Hl].
    + destruct (escalationStep_spawn t w1 Hd Hl) as (_ & -> & _). lra.
    + destruct (escalationStep_speed_up t w1 Hd Hl) as (_ & -> & _).
      unfold SPEED_STEP. lra.
  - rewrite escalationStep_not_due by exact Hd. lra.
Qed.

Lemma forBalls_no_breach (factor : R) (bs : list Ball) (w : World) :
  (forall c : Ball,
     In c bs -> breaches (bounceWalls (integrate factor c)) = false) ->
  health (gs (snd (forBalls factor bs w))) = health (gs w) /\
  phase (gs (snd (forBalls factor bs w))) = phase (gs w).
Proof.
  revert w; induction bs as [|b rest IH]; intros w H.
  - split; reflexivity.
  - rewrite forBalls_cons. cbn [snd].
    destruct (IH (snd (stepBall factor b w))) as [-> ->].
    { intros c Hc. apply H. right. exact Hc. }
    rewrite (stepBall_no_breach factor b w) by (apply H; left; reflexivity).
    destruct (findHit _ _ _) as [[i b2]|]; split; reflexivity.
Qed.

Lemma atTurn_playing (t : R) (w : World) (pre : list Ball) :
  phase (gs w) = PLAYING ->
  (0 < health (gs (atTurn t w pre)))%Z ->
  phase (gs (atTurn t w pre)) = PLAYING.
Proof.
  intros Hp Hh. unfold atTurn in *.
  assert (K : phase (gs (beforeBalls t w)) = PLAYING \/
              (phase (gs (beforeBalls t w)) = DEAD /\
               health (gs (beforeBalls t w)) = 0%Z)).
  { left. destruct (beforeBalls_frame t w) as (_ & _ & _ & _ & ->).
    exact Hp. }
  apply (forBalls_keeps
           (fun w' => phase (gs w') = PLAYING \/
                      (phase (gs w') = DEAD /\ health (gs w') = 0%Z))
           stepBall_playing_or_just_over
           (frameFactor (lastFrame w) t) pre) in K.
  destruct K as [K|[_ K]]; [exact K|lia].
Qed.

(** C7, as the code has it: each ball that reaches the bottom bound in a
    tick while the health at its turn is above 1 takes exactly one unit of
    health in its step and keeps the phase Playing; that step tests no
    obstacle (blocks and score are as before it), and at the end of the
    tick the ball stands at its respawn: y in the top band
    [radius + 20, radius + 60], x drawn across the arena, vy > 0, computed
    from the current speed.  When no other ball breaches in the tick, the
    tick as a whole takes exactly one unit of health and ends Playing. *)
Theorem C7_each_breach_takes_one_health (t : R) (w : World)
    (pre post : list Ball) (b : Ball) :
  (forall i : nat, 0 <= rand i < 1) ->
  phase (gs w) = PLAYING ->
  0 < speed (gs w) ->
  balls (gs (beforeBalls t w)) = pre ++ b :: post ->
  breaches (bounceWalls (integrate (frameFactor (lastFrame w) t) b)) = true ->
  (1 < health (gs (atTurn t w pre)))%Z ->
  health (gs (snd (turnOf t w pre b)))
    = (health (gs (atTurn t w pre)) - 1)%Z /\
  phase (gs (snd (turnOf t w pre b))) = PLAYING /\
  blocks (gs (snd (turnOf t w pre b))) = blocks (gs (atTurn t w pre)) /\
  score (gs (snd (turnOf t w pre b))) = score (gs (atTurn t w pre)) /\
  fst (turnOf t w pre b) =
    respawn (speed (gs (atTurn t w pre))) (rngCalls (atTurn t w pre))
      (bounceWalls (integrate (frameFactor (lastFrame w) t) b)) /\
  nth_error (balls (gs (gameLoop t w))) (List.length pre)
    = Some (fst (turnOf t w pre b)) /\
  ball_radius b + 20 <= ball_y (fst (turnOf t w pre b))
    <= ball_radius b + 60 /\
  ball_x (fst (turnOf t w pre b)) =
    ball_radius b
    + rand (rngCalls (atTurn t w pre)) * (arenaW - ball_radius b * 2) /\
  0 < ball_vy (fst (turnOf t w pre b)) /\
  (health (gs (gameLoop t w)) <= health (gs (atTurn t w pre)) - 1)%Z /\
  ((forall c : Ball,
      In c (pre ++ post) ->
      breaches (bounceWalls (integrate (frameFactor (lastFrame w) t) c))
        = false) ->
   health (gs (gameLoop t w)) = (health (gs w) - 1)%Z /\
   phase (gs (gameLoop t w)) = PLAYING).
Proof.
  intros Hrand Hp Hs Hbs Hb Hh.
  set (F := frameFactor (lastFrame w) t) in *.
  assert (Hphase : phase (gs (atTurn t w pre)) = PLAYING)
    by (apply atTurn_playing; [exact Hp|lia]).
  assert (Hspeed : 0 < speed (gs (atTurn t w pre))).
  { unfold atTurn. fold F.
    destruct (forBalls_frame F pre (beforeBalls t w)) as (_ & _ & -> & _).
    pose proof (beforeBalls_speed_ge t w). lra. }
  assert (Hturn : turnOf t w pre b =
            (respawn (speed (gs (atTurn t w pre))) (rngCalls (atTurn t w pre))
               (bounceWalls (integrate F b)),
             set_rngCalls (rngCalls (atTurn t w pre) + 4)
               (handleCoreDamage (atTurn t w pre))))
    by (unfold turnOf; fold F; apply stepBall_breach, Hb).
  assert (Hr : ball_radius (bounceWalls (integrate F b)) = ball_radius b)
    by (rewrite bounceWalls_radius; reflexivity).
  assert (Hh1 : health (gs (snd (turnOf t w pre b)))
                = (health (gs (atTurn t w pre)) - 1)%Z).
  { rewrite Hturn. cbn [snd gs set_rngCalls].
    rewrite handleCoreDamage_health. lia. }
  assert (Hp1 : phase (gs (snd (turnOf t w pre b))) = PLAYING).
  { rewrite Hturn. cbn [snd gs set_rngCalls].
    rewrite handleCoreDamage_phase, Hphase.
    destruct (Z.max 0 (health (gs (atTurn t w pre)) - 1) <=? 0)%Z eqn:E;
      [|reflexivity].
    apply Z.leb_le in E. lia. }
  assert (Hloop : forBalls F (balls (gs (beforeBalls t w))) (beforeBalls t w)
            = (fst (forBalls F pre (beforeBalls t w))
                 ++ fst (turnOf t w pre b)
                 :: fst (forBalls F post (snd (turnOf t w pre b))),
               snd (forBalls F post (snd (turnOf t w pre b)))))
    by (rewrite Hbs; apply forBalls_turn).
  assert (Hend : health (gs (gameLoop t w))
                 = health (gs (snd (forBalls F post (snd (turnOf t w pre b)))))
                 /\ phase (gs (gameLoop t w))
                 = phase (gs (snd (forBalls F post (snd (turnOf t w pre b)))))).
  { destruct (gameLoop_loop_fields t w Hp) as (_ & _ & -> & -> & _).
    fold F. rewrite Hloop. split; reflexivity. }
  split; [exact Hh1|]. split; [exact Hp1|].
  split.
  { rewrite Hturn. cbn [snd gs set_rngCalls]. apply handleCoreDamage_frame. }
  split.
  { rewrite Hturn. cbn [snd gs set_rngCalls]. apply handleCoreDamage_frame. }
  split; [rewrite Hturn; reflexivity|].
  split.
  { rewrite (gameLoop_balls t w Hp). fold F. rewrite Hloop. cbn [fst].
    rewrite nth_error_app2 by (rewrite forBalls_length; lia).
    rewrite forBalls_length, Nat.sub_diag. reflexivity. }
  split.
  { rewrite Hturn. cbn [fst]. unfold respawn; cbn. rewrite Hr.
    pose proof (Hrand (rngCalls (atTurn t w pre) + 1)%nat). lra. }
  split.
  { rewrite Hturn. cbn [fst]. unfold respawn; cbn. rewrite Hr. reflexivity. }
  split.
  { rewrite Hturn. cbn [fst]. apply respawn_vy_pos; [apply Hrand|exact Hspeed]. }
  split.
  { destruct Hend as [-> _].
    pose proof (forBalls_health_range F post (snd (turnOf t w pre b))). lia. }
  intros Hno. destruct Hend as [-> ->].
  destruct (forBalls_no_breach F post (snd (turnOf t w pre b))) as [-> ->].
  { intros c Hc. apply Hno, in_or_app. right. exact Hc. }
  split; [|exact Hp1]. rewrite Hh1. unfold atTurn. fold F.
  destruct (forBalls_no_breach F pre (beforeBalls t w)) as [-> _].
  { intros c Hc. apply Hno, in_or_app. left. exact Hc. }
  destruct (beforeBalls_frame t w) as (_ & _ & -> & _). reflexivity.
Qed.

(** ** Velocity magnitude, in exact arithmetic *)




End Engine.

(** * The speed lines in binary64

    The engine above reads every [number] as a real.  The lines that
    compute a velocity from the speed, and the line that raises the speed,
    round in the program; this module reads them in binary64, with the
    values of [Math.cos] and [Math.sin] at the angle taken as given. *)

Module Binary64.

Import PrimFloat.
#[local] Open Scope float_scope.


Definition SPEED_STEP64 : float := 0x1.3333333333333p+0.


(** [Math.cos(angle) * speed * sign] and [Math.abs(Math.sin(angle) * speed)],
    for [cosAngle = Math.cos(angle)] and [sinAngle = Math.sin(angle)]. *)
Definition launchVelocity64 (cosAngle sinAngle spd sign : float)
  : float * float :=
  (cosAngle * spd * sign, abs (sinAngle * spd)).


(** [gs.speed += SPEED_STEP] *)
Definition speedUp64 (spd : float) : float := spd + SPEED_STEP64.


(** [Math.sin] at 0.5235987755982988, the angle of the draw 0:
    0.49999999999999994. *)
Definition sin30 : float := 0x1.fffffffffffffp-2.


(** Four speed-ups from 4.5 give 9.299999999999999, not 9.3, and the
    downward speed at the angle draw 0 is below half the speed. *)
Lemma rounding_of_speed_lines :
  speedUp64 (speedUp64 (speedUp64 (speedUp64 4.5))) = 0x1.2999999999999p+3 /\
  ltb (speedUp64 (speedUp64 (speedUp64 (speedUp64 4.5)))) (4.5 + 4 * SPEED_STEP64)
    = true /\
  snd (launchVelocity64 0 sin30 4.5 1) = 0x1.1ffffffffffffp+1 /\
  ltb (snd (launchVelocity64 0 sin30 4.5 1)) (4.5 / 2) = true.
Proof. vm_compute. repeat split. Qed.

End Binary64.

(** * Scenarios on a 400 x 600 arena

    The random source returns 1/2 at every call, so every launch angle is
    90 degrees: a ball is made at x = 200 moving straight down. *)

Definition arena400 : R := 400.
Definition arena600 : R := 600.
Definition randHalf : nat -> R := fun _ => / 2.

Lemma launchAngle_half : launchAngle (/ 2) = PI / 2.
Proof. unfold launchAngle. lra. Qed.

Lemma randHalf_range (i : nat) : 0 <= randHalf i < 1.
Proof. unfold randHalf. lra. Qed.

Lemma makeBall_half (spd : R) (colorIdx n : nat) :
  0 <= spd ->
  makeBall arena400 randHalf spd colorIdx n =
  mkBall 200 63 0 spd (nth (colorIdx mod 3) BALL_COLORS EmptyString) 13.
Proof.
  intros Hs. unfold makeBall, randHalf, arena400, BALL_RADIUS.
  rewrite launchAngle_half, cos_PI2, sin_PI2.
  rewrite Rabs_pos_eq by lra.
  f_equal; lra.
Qed.

Lemma respawn_half (spd : R) (n : nat) (b : Ball) :
  0 <= spd -> ball_radius b = 13 ->
  respawn arena400 randHalf spd n b =
  mkBall 200 53 0 spd (ball_color b) 13.
Proof.
  intros Hs Hr. unfold respawn, randHalf, arena400, set_vel, set_pos.
  cbn. rewrite launchAngle_half, cos_PI2, sin_PI2, Hr.
  rewrite Rabs_pos_eq by lra.
  f_equal; lra.
Qed.

(** The session right after [startGame] on the fresh world. *)
Definition started : World := startGame arena400 randHalf initialWorld.

Lemma started_eq :
  started =
  mkWorld
    (mkGameState [mkBall 200 63 0 4.5 "#ff1744" 13] [] 8 5 0 1 4.5 0 0 0
       PLAYING) 0 4 [].
Proof.
  unfold started, startGame.
  rewrite makeBall_half by (unfold INITIAL_SPEED; lra).
  reflexivity.
Qed.

Lemma frameFactor_first (t : R) : frameFactor 0 t = 0.
Proof.
  unfold frameFactor, frameDt, frameStart.
  rewrite (proj2 (Reqb_true 0 0) eq_refl).
  replace (t - t) with 0 by ring. rewrite Rmin_left by lra. lra.
Qed.

Lemma frameFactor_backwards : frameFactor 100 50 = -50 / 16.67.
Proof.
  unfold frameFactor, frameDt, frameStart.
  rewrite (proj2 (Reqb_false 100 0)) by lra.
  rewrite Rmin_left by lra. lra.
Qed.

(** The first tick of the session, at timestamp 100: the ball stays put. *)
Lemma first_tick_at_100 :
  gameLoop arena400 arena600 randHalf 100 started =
  mkWorld
    (mkGameState [integrate 0 (mkBall 200 63 0 4.5 "#ff1744" 13)] [] 8 5 0 1
       4.5 0 0 0 PLAYING) 100 4 [].
Proof.
  rewrite started_eq.
  rewrite (gameLoop_single_free arena400 arena600 randHalf 100 _
             (mkBall 200 63 0 4.5 "#ff1744" 13));
    cbn [gs lastFrame phase balls blocks lastEnergyRegen lastEscalation];
    rewrite ?frameFactor_first;
    try reflexivity;
    unfold ENERGY_REGEN_MS, ESCALATION_MS, arena400, arena600; cbn; lra.
Qed.

(** A second tick whose timestamp, 50, is earlier than the previous one. *)
Lemma second_tick_at_50 :
  gameLoop arena400 arena600 randHalf 50
    (gameLoop arena400 arena600 randHalf 100 started) =
  mkWorld
    (mkGameState
       [integrate (-50 / 16.67)
          (integrate 0 (mkBall 200 63 0 4.5 "#ff1744" 13))]
       [] 8 5 0 1 4.5 0 0 0 PLAYING) 50 4 [].
Proof.
  rewrite first_tick_at_100.
  rewrite (gameLoop_single_free arena400 arena600 randHalf 50 _
             (integrate 0 (mkBall 200 63 0 4.5 "#ff1744" 13)));
    cbn [gs lastFrame phase balls blocks lastEnergyRegen lastEscalation];
    rewrite ?frameFactor_backwards;
    try reflexivity;
    unfold ENERGY_REGEN_MS, ESCALATION_MS, arena400, arena600; cbn; lra.
Qed.

(** C3 fails as stated: after a session start and a tick at timestamp 100,
    a tick at timestamp 50 runs with the factor -50 / 16.67 < 0 and moves
    the ball, whose vy is 4.5 > 0, from y = 63 up to y < 63. *)
Lemma C3_counterexample_negative_factor :
  lastFrame (gameLoop arena400 arena600 randHalf 100 started) = 100 /\
  frameFactor 100 50 < 0 /\
  map ball_y
    (balls (gs (gameLoop arena400 arena600 randHalf 100 started))) = [63] /\
  map ball_vy
    (balls (gs (gameLoop arena400 arena600 randHalf 100 started))) = [4.5] /\
  Forall (fun b => ball_y b < 63 /\ ball_vy b = 4.5)
    (balls (gs (gameLoop arena400 arena600 randHalf 50
                  (gameLoop arena400 arena600 randHalf 100 started)))) /\
  List.length
    (balls (gs (gameLoop arena400 arena600 randHalf 50
                  (gameLoop arena400 arena600 randHalf 100 started)))) = 1%nat.
Proof.
  rewrite second_tick_at_50, first_tick_at_100, frameFactor_backwards.
  cbn. repeat split; try lra.
  - f_equal. lra.
  - constructor; [|constructor]. cbn. split; lra.
Qed.

(** ** The first tick of a session *)

(** [startGame] stores 0 in both stamps and [gameLoop] subtracts them as
    they are, so a first tick at a timestamp of at least [ESCALATION_MS]
    escalates at once. *)
Lemma late_first_tick_escalates (aW aH : R) (rnd : nat -> R) (T : R)
    (w : World) :
  ESCALATION_MS <= T ->
  wave (gs (gameLoop aW aH rnd T (startGame aW rnd w))) = 2%Z /\
  List.length (balls (gs (gameLoop aW aH rnd T (startGame aW rnd w))))
    = 2%nat /\
  lastEscalation (gs (gameLoop aW aH rnd T (startGame aW rnd w))) = T /\
  lastEnergyRegen (gs (gameLoop aW aH rnd T (startGame aW rnd w))) = T.
Proof.
  intros HT.
  set (w0 := startGame aW rnd w).
  assert (Hp : phase (gs w0) = PLAYING) by reflexivity.
  destruct (gameLoop_clock_fields aW aH rnd T w0 Hp)
    as (_ & -> & -> & -> & _).
  rewrite (gameLoop_balls aW aH rnd T w0 Hp), forBalls_length.
  unfold beforeBalls.
  set (w1 := set_gs (regenStep T (gs w0)) (set_lastFrame T w0)).
  destruct (regenStep_frame T (gs w0)) as (Hb & _ & _ & _ & Hw & _ & Hl & _).
  assert (Hd : escalationDue T (gs w1) = true).
  { unfold escalationDue, w1. cbn [gs set_gs]. rewrite Hl.
    apply Rleb_true. cbn. lra. }
  assert (Hlen : (List.length (balls (gs w1)) < 3)%nat).
  { unfold w1. cbn [gs set_gs]. rewrite Hb. cbn. lia. }
  rewrite escalationStep_wave, escalationStep_stamp, Hd.
  destruct (escalationStep_spawn aW rnd T w1 Hd Hlen) as (-> & _).
  rewrite length_app. unfold w1 at 1 2. cbn [gs set_gs]. rewrite Hw, Hb.
  repeat split.
  rewrite regenStep_stamp.
  rewrite (proj2 (Rleb_true _ _)); [reflexivity|].
  cbn. unfold ENERGY_REGEN_MS, ESCALATION_MS in *. lra.
Qed.

(** C2 at a failing input: the session starts with both stamps at 0, wave 1
    and one ball; its first tick, at timestamp 20000, already counts wave 2
    and holds two balls, and moves both stamps to 20000. *)
Theorem C2_first_tick_measures_from_zero :
  lastEnergyRegen (gs started) = 0 /\
  lastEscalation (gs started) = 0 /\
  wave (gs started) = 1%Z /\
  List.length (balls (gs started)) = 1%nat /\
  wave (gs (gameLoop arena400 arena600 randHalf 20000 started)) = 2%Z /\
  List.length
    (balls (gs (gameLoop arena400 arena600 randHalf 20000 started))) = 2%nat /\
  lastEscalation (gs (gameLoop arena400 arena600 randHalf 20000 started))
    = 20000 /\
  lastEnergyRegen (gs (gameLoop arena400 arena600 randHalf 20000 started))
    = 20000.
Proof.
  assert (H : ESCALATION_MS <= 20000) by (unfold ESCALATION_MS; lra).
  pose proof (late_first_tick_escalates arena400 arena600 randHalf 20000
                initialWorld H) as L.
  fold started in L.
  repeat split; try reflexivity; apply L.
Qed.

(** ** A tick that ends the session

    The session was started after 20 s on the title screen, so its first
    tick, at 20000, spawned the second ball.  Four breaches later one unit
    of health is left; energy was last regenerated at 25500 and one block
    has been placed since.  The first ball is about to cross the bottom
    bound, the second is about to touch the block.  The previous frame was
    at 26000 and the tick comes one reference frame later. *)

Definition ballA : Ball := mkBall 200 585 0 4.5 "#ff1744" 13.
Definition ballB : Ball := mkBall 120 310 0 4.5 "#ff9100" 13.
Definition block1 : Block := mkBlock 1 100 324 50 36 "#00ffcc".

Definition lastStand : World :=
  mkWorld
    (mkGameState [ballA; ballB] [block1] 7 1 0 2 4.5 25500 20000 1 PLAYING)
    26000 25
    [hapticImpact ILight; hapticNotify NError; hapticNotify NError;
     hapticNotify NError; hapticNotify NError; hapticNotify NSuccess].

Lemma frameFactor_one_frame (lf t : R) :
  lf <> 0 -> t - lf = 16.67 -> frameFactor lf t = 1.
Proof.
  intros Hnz Hd. unfold frameFactor, frameDt, frameStart.
  rewrite (proj2 (Reqb_false lf 0) Hnz).
  rewrite Rmin_left by lra. lra.
Qed.

Lemma ballA_flies : bounceWalls arena400 (integrate 1 ballA) = integrate 1 ballA.
Proof. apply bounceWalls_free; unfold arena400; cbn; lra. Qed.

Lemma ballA_breaches :
  breaches arena600 (bounceWalls arena400 (integrate 1 ballA)) = true.
Proof.
  rewrite ballA_flies. apply Rleb_true. unfold arena600; cbn. lra.
Qed.

Lemma ballB_flies : bounceWalls arena400 (integrate 1 ballB) = integrate 1 ballB.
Proof. apply bounceWalls_free; unfold arena400; cbn; lra. Qed.

Lemma ballB_stays_above :
  breaches arena600 (bounceWalls arena400 (integrate 1 ballB)) = false.
Proof.
  rewrite ballB_flies. apply Rleb_false. unfold arena600; cbn. lra.
Qed.

Lemma ballB_nearest :
  nearX (integrate 1 ballB) block1 = 120 /\
  nearY (integrate 1 ballB) block1 = 324.
Proof.
  unfold nearX, nearY; cbn. split.
  - rewrite Rmin_left by lra. rewrite Rmax_right by lra. lra.
  - rewrite Rmin_left by lra. rewrite Rmax_left by lra. lra.
Qed.

Lemma ballB_hits_block1 :
  hits (bounceWalls arena400 (integrate 1 ballB)) block1 = true.
Proof.
  rewrite ballB_flies. unfold hits, dist2.
  destruct ballB_nearest as [-> ->].
  apply Rltb_true. cbn. lra.
Qed.

Lemma ballB_reflected :
  reflect (integrate 1 ballB) block1 = mkBall 120 311 0 (-4.5) "#ff9100" 13.
Proof.
  unfold reflect. destruct ballB_nearest as [-> ->]. cbn.
  replace (120 + 0 * 1 - 120) with 0 by lra.
  replace (310 + 4.5 * 1 - 324) with (-9.5) by lra.
  rewrite Rabs_R0, Rabs_left by lra.
  rewrite (proj2 (Rltb_false _ _)) by lra.
  rewrite (proj2 (Rltb_false _ _)) by lra.
  unfold set_pos, set_vel; cbn. f_equal; lra.
Qed.

(** The world after the step of the first ball: the session is over, the
    block stands and the score is 0. *)
Lemma lastStand_after_ballA :
  stepBall arena400 arena600 randHalf 1 ballA
    (set_lastFrame 26016.67 lastStand) =
  (mkBall 200 53 0 4.5 "#ff1744" 13,
   mkWorld
     (mkGameState [ballA; ballB] [block1] 7 0 0 2 4.5 25500 20000 1 DEAD)
     26016.67 29
     [hapticNotify NError; hapticImpact ILight; hapticNotify NError;
      hapticNotify NError; hapticNotify NError; hapticNotify NError;
      hapticNotify NSuccess]).
Proof.
  rewrite (stepBall_breach _ _ _ _ _ _ ballA_breaches).
  rewrite ballA_flies.
  rewrite respawn_half; [reflexivity|cbn; lra|reflexivity].
Qed.

Lemma lastStand_tick :
  gameLoop arena400 arena600 randHalf 26016.67 lastStand =
  mkWorld
    (mkGameState
       [mkBall 200 53 0 4.5 "#ff1744" 13;
        mkBall 120 311 0 (-4.5) "#ff9100" 13]
       [] 7 0 10 2 4.5 25500 20000 1 DEAD)
    26016.67 29
    [hapticImpact IHeavy; hapticNotify NError; hapticImpact ILight;
     hapticNotify NError; hapticNotify NError; hapticNotify NError;
     hapticNotify NError; hapticNotify NSuccess].
Proof.
  rewrite gameLoop_playing by reflexivity. cbv zeta.
  rewrite beforeBalls_quiet
    by (cbn; unfold ENERGY_REGEN_MS, ESCALATION_MS; lra).
  replace (frameFactor (lastFrame lastStand) 26016.67) with 1
    by (symmetry; apply frameFactor_one_frame; cbn; lra).
  replace (balls (gs (set_lastFrame 26016.67 lastStand)))
    with [ballA; ballB] by reflexivity.
  rewrite forBalls_cons, lastStand_after_ballA. cbn [fst snd].
  rewrite forBalls_cons.
  rewrite (stepBall_hit_head arena400 arena600 randHalf 1 ballB _ block1 []
             ballB_stays_above)
    by (reflexivity || exact ballB_hits_block1).
  rewrite ballB_flies, ballB_reflected. reflexivity.
Qed.

(** C1 fails as stated: in the tick of [lastStand] at 26016.67 the step of
    the first ball brings health from 1 to 0 and the phase to DEAD while the
    block stands and the score is 0; at the end of the same tick that ball
    has been moved to its respawn position (200, 53), the second ball has
    bounced off the block, the block is gone and the score is 10. *)
Lemma C1_counterexample_mutations_after_death :
  phase (gs lastStand) = PLAYING /\
  health (gs lastStand) = 1%Z /\
  frameFactor (lastFrame lastStand) 26016.67 = 1 /\
  beforeBalls arena400 randHalf 26016.67 lastStand =
    set_lastFrame 26016.67 lastStand /\
  phase (gs (snd (stepBall arena400 arena600 randHalf 1 ballA
                    (set_lastFrame 26016.67 lastStand)))) = DEAD /\
  health (gs (snd (stepBall arena400 arena600 randHalf 1 ballA
                     (set_lastFrame 26016.67 lastStand)))) = 0%Z /\
  score (gs (snd (stepBall arena400 arena600 randHalf 1 ballA
                    (set_lastFrame 26016.67 lastStand)))) = 0%Z /\
  blocks (gs (snd (stepBall arena400 arena600 randHalf 1 ballA
                     (set_lastFrame 26016.67 lastStand)))) = [block1] /\
  phase (gs (gameLoop arena400 arena600 randHalf 26016.67 lastStand)) = DEAD /\
  balls (gs (gameLoop arena400 arena600 randHalf 26016.67 lastStand)) =
    [mkBall 200 53 0 4.5 "#ff1744" 13;
     mkBall 120 311 0 (-4.5) "#ff9100" 13] /\
  blocks (gs (gameLoop arena400 arena600 randHalf 26016.67 lastStand)) = [] /\
  score (gs (gameLoop arena400 arena600 randHalf 26016.67 lastStand)) = 10%Z.
Proof.
  rewrite lastStand_tick, lastStand_after_ballA.
  repeat split.
  - apply frameFactor_one_frame; cbn; lra.
  - apply beforeBalls_quiet; cbn; unfold ENERGY_REGEN_MS, ESCALATION_MS; lra.
Qed.

(** ** Instances *)

Lemma started_reachable : reachable arena400 arena600 randHalf started.
Proof. apply reach_start, reach_init. Qed.

Lemma C9_witness_started :
  reachable arena400 arena600 randHalf started /\ resourcesInRange started.
Proof.
  split; [exact started_reachable|].
  exact (C9_resources_within_bounds arena400 arena600 randHalf started
           started_reachable).
Defined.




(** One ball heading straight down, five units of health, five seconds
    into the session; energy was last regenerated at 4500. *)
Definition fiveLives : World :=
  mkWorld (mkGameState [ballA] [] 8 5 0 1 4.5 4500 0 0 PLAYING) 5000 4 [].

Lemma fiveLives_factor : frameFactor (lastFrame fiveLives) 5016.67 = 1.
Proof. apply frameFactor_one_frame; cbn; lra. Qed.

Lemma fiveLives_beforeBalls :
  beforeBalls arena400 randHalf 5016.67 fiveLives
  = set_lastFrame 5016.67 fiveLives.
Proof.
  apply beforeBalls_quiet; cbn; unfold ENERGY_REGEN_MS, ESCALATION_MS; lra.
Qed.

(** The whole tick of [fiveLives] one reference frame later: health 4, still
    Playing, the ball back in the top band and heading down. *)
Lemma fiveLives_tick :
  gameLoop arena400 arena600 randHalf 5016.67 fiveLives =
  mkWorld
    (mkGameState [mkBall 200 53 0 4.5 "#ff1744" 13] [] 8 4 0 1 4.5 4500 0
       0 PLAYING)
    5016.67 8 [hapticNotify NError].
Proof.
  rewrite gameLoop_playing by reflexivity. cbv zeta.
  rewrite fiveLives_beforeBalls, fiveLives_factor.
  replace (balls (gs (set_lastFrame 5016.67 fiveLives)))
    with [ballA] by reflexivity.
  rewrite forBalls_cons.
  rewrite (stepBall_breach _ _ _ _ _ _ ballA_breaches).
  rewrite ballA_flies.
  rewrite respawn_half; [reflexivity|cbn; lra|reflexivity].
Qed.

Lemma fiveLives_ballA_breaches :
  breaches arena600
    (bounceWalls arena400
       (integrate (frameFactor (lastFrame fiveLives) 5016.67) ballA)) = true.
Proof. rewrite fiveLives_factor. exact ballA_breaches. Qed.

Lemma fiveLives_balls :
  balls (gs (beforeBalls arena400 randHalf 5016.67 fiveLives))
  = [] ++ ballA :: [].
Proof. rewrite fiveLives_beforeBalls. reflexivity. Qed.

Lemma fiveLives_health_at_turn :
  (1 < health (gs (atTurn arena400 arena600 randHalf 5016.67 fiveLives [])))%Z.
Proof.
  unfold atTurn. cbn [forBalls snd]. rewrite fiveLives_beforeBalls.
  cbn. lia.
Qed.

Lemma fiveLives_speed : 0 < speed (gs fiveLives).
Proof. cbn. lra. Qed.

Lemma fiveLives_no_other_ball (c : Ball) :
  In c ([] ++ []) ->
  breaches arena600
    (bounceWalls arena400
       (integrate (frameFactor (lastFrame fiveLives) 5016.67) c)) = false.
Proof. intros []. Qed.

Lemma C7_witness_breach_at_health_5 :
  (forall i : nat, 0 <= randHalf i < 1) /\
  phase (gs fiveLives) = PLAYING /\
  0 < speed (gs fiveLives) /\
  balls (gs (beforeBalls arena400 randHalf 5016.67 fiveLives))
    = [] ++ ballA :: [] /\
  breaches arena600
    (bounceWalls arena400
       (integrate (frameFactor (lastFrame fiveLives) 5016.67) ballA)) = true /\
  (1 < health (gs (atTurn arena400 arena600 randHalf 5016.67 fiveLives [])))%Z
  /\
  health (gs fiveLives) = 5%Z /\
  health (gs (gameLoop arena400 arena600 randHalf 5016.67 fiveLives))
    = (health (gs fiveLives) - 1)%Z /\
  phase (gs (gameLoop arena400 arena600 randHalf 5016.67 fiveLives))
    = PLAYING /\
  nth_error
    (balls (gs (gameLoop arena400 arena600 randHalf 5016.67 fiveLives))) 0
    = Some (fst (turnOf arena400 arena600 randHalf 5016.67 fiveLives []
                   ballA)) /\
  13 + 20
    <= ball_y (fst (turnOf arena400 arena600 randHalf 5016.67 fiveLives []
                      ballA))
    <= 13 + 60 /\
  0 < ball_vy (fst (turnOf arena400 arena600 randHalf 5016.67 fiveLives []
                      ballA)).
Proof.
  split; [exact randHalf_range|]. split; [reflexivity|].
  split; [exact fiveLives_speed|]. split; [exact fiveLives_balls|].
  split; [exact fiveLives_ballA_breaches|].
  split; [exact fiveLives_health_at_turn|]. split; [reflexivity|].
  destruct (C7_each_breach_takes_one_health arena400 arena600 randHalf
              5016.67 fiveLives [] [] ballA randHalf_range eq_refl
              fiveLives_speed fiveLives_balls fiveLives_ballA_breaches
              fiveLives_health_at_turn)
    as (_ & _ & _ & _ & _ & Hn & Hy & _ & Hvy & _ & Hone).
  destruct (Hone fiveLives_no_other_ball) as [Hh Hp].
  split; [exact Hh|]. split; [exact Hp|]. split; [exact Hn|].
  split; [exact Hy|exact Hvy].
Defined.

(** ** Two balls breaching in one tick

    The session was started after 20 s on the title screen, so its first
    tick, at 20000, spawned the second ball beside the first.  Two seconds
    later both are about to cross the bottom bound. *)

Definition ballA2 : Ball := mkBall 200 585 0 4.5 "#ff9100" 13.

Definition twoAtTheCore : World :=
  mkWorld
    (mkGameState [ballA; ballA2] [] 8 5 0 2 4.5 21800 20000 0 PLAYING)
    22000 8 [hapticNotify NSuccess].

Lemma ballA2_flies :
  bounceWalls arena400 (integrate 1 ballA2) = integrate 1 ballA2.
Proof. apply bounceWalls_free; unfold arena400; cbn; lra. Qed.

Lemma ballA2_breaches :
  breaches arena600 (bounceWalls arena400 (integrate 1 ballA2)) = true.
Proof.
  rewrite ballA2_flies. apply Rleb_true. unfold arena600; cbn. lra.
Qed.

Lemma twoAtTheCore_tick :
  gameLoop arena400 arena600 randHalf 22016.67 twoAtTheCore =
  mkWorld
    (mkGameState
       [mkBall 200 53 0 4.5 "#ff1744" 13; mkBall 200 53 0 4.5 "#ff9100" 13]
       [] 8 3 0 2 4.5 21800 20000 0 PLAYING)
    22016.67 16
    [hapticNotify NError; hapticNotify NError; hapticNotify NSuccess].
Proof.
  rewrite gameLoop_playing by reflexivity. cbv zeta.
  rewrite beforeBalls_quiet
    by (cbn; unfold ENERGY_REGEN_MS, ESCALATION_MS; lra).
  replace (frameFactor (lastFrame twoAtTheCore) 22016.67) with 1
    by (symmetry; apply frameFactor_one_frame; cbn; lra).
  replace (balls (gs (set_lastFrame 22016.67 twoAtTheCore)))
    with [ballA; ballA2] by reflexivity.
  rewrite forBalls_cons.
  rewrite (stepBall_breach _ _ _ _ _ _ ballA_breaches).
  rewrite ballA_flies.
  rewrite respawn_half; [|cbn; lra|reflexivity].
  cbn [fst snd]. rewrite forBalls_cons.
  rewrite (stepBall_breach _ _ _ _ _ _ ballA2_breaches).
  rewrite ballA2_flies.
  rewrite respawn_half; [reflexivity|cbn; lra|reflexivity].
Qed.

(** C7 fails as stated: in the tick of [twoAtTheCore] at 22016.67 a
    projectile crosses the bottom bound while health is 5, and the tick
    ends with health 3, not 4: the second ball breaches in the same tick
    and takes a unit of its own. *)
Lemma C7_counterexample_two_breaches_in_one_tick :
  phase (gs twoAtTheCore) = PLAYING /\
  health (gs twoAtTheCore) = 5%Z /\
  frameFactor (lastFrame twoAtTheCore) 22016.67 = 1 /\
  beforeBalls arena400 randHalf 22016.67 twoAtTheCore =
    set_lastFrame 22016.67 twoAtTheCore /\
  balls (gs twoAtTheCore) = [ballA; ballA2] /\
  breaches arena600 (bounceWalls arena400 (integrate 1 ballA)) = true /\
  breaches arena600 (bounceWalls arena400 (integrate 1 ballA2)) = true /\
  health (gs (gameLoop arena400 arena600 randHalf 22016.67 twoAtTheCore))
    = 3%Z /\
  phase (gs (gameLoop arena400 arena600 randHalf 22016.67 twoAtTheCore))
    = PLAYING.
Proof.
  rewrite twoAtTheCore_tick.
  repeat split.
  - apply frameFactor_one_frame; cbn; lra.
  - apply beforeBalls_quiet; cbn; unfold ENERGY_REGEN_MS, ESCALATION_MS; lra.
  - exact ballA_breaches.
  - exact ballA2_breaches.
Qed.

(** A ball whose centre is exactly one radius above the block does not hit
    it; half a unit closer, it does. *)
Lemma tangent_ball_does_not_hit :
  dist2 (mkBall 120 311 0 4.5 "#ff9100" 13) block1 = 13 * 13 /\
  hits (mkBall 120 311 0 4.5 "#ff9100" 13) block1 = false /\
  hits (mkBall 120 311.5 0 4.5 "#ff9100" 13) block1 = true.
Proof.
  unfold hits, dist2, nearX, nearY; cbn.
  rewrite !(Rmin_left 120) by lra. rewrite !(Rmax_right 100) by lra.
  rewrite (Rmin_left 311) by lra. rewrite (Rmin_left 311.5) by lra.
  rewrite !(Rmax_left 324) by lra.
  split; [lra|]. split; [apply Rltb_false|apply Rltb_true]; lra.
Qed.


(** ** Instances of the further properties *)

(** The started session after one tap at (120, 330). *)
Definition tapped : World := handleArenaTap arena400 randHalf 120 330 started.

Lemma tapped_reachable : reachable arena400 arena600 randHalf tapped.
Proof. apply reach_tap, started_reachable. Qed.

Lemma started_accepts_tap : ~ tapRejected arena400 120 330 started.
Proof.
  unfold tapRejected. rewrite started_eq. cbn.
  intros [H|[H|(blk & [] & _)]]; [apply H; reflexivity|lia].
Qed.

Lemma blocks_in_distinct_cells_witness :
  reachable arena400 arena600 randHalf tapped /\
  pairwise (fun a b => ~ sameCell a b) (blocks (gs tapped)).
Proof.
  split; [exact tapped_reachable|].
  exact (reachable_blocks_in_distinct_cells arena400 arena600 randHalf tapped
           tapped_reachable).
Defined.

Lemma block_ids_unique_witness :
  reachable arena400 arena600 randHalf tapped /\
  NoDup (map blk_id (blocks (gs tapped))).
Proof.
  split; [exact tapped_reachable|].
  exact (proj2 (reachable_block_ids_unique arena400 arena600 randHalf tapped
                  tapped_reachable)).
Defined.

Lemma score_counts_destroyed_blocks_witness :
  reachable arena400 arena600 randHalf tapped /\
  score (gs tapped) =
    (10 * (blockIdCounter (gs tapped)
           - Z.of_nat (List.length (blocks (gs tapped)))))%Z.
Proof.
  split; [exact tapped_reachable|].
  exact (proj1 (reachable_score_counts_destroyed_blocks arena400 arena600
                  randHalf tapped tapped_reachable)).
Defined.

Lemma game_over_iff_no_health_witness :
  reachable arena400 arena600 randHalf tapped /\
  (phase (gs tapped) = DEAD <-> health (gs tapped) = 0%Z).
Proof.
  split; [exact tapped_reachable|].
  exact (proj2 (reachable_game_over_iff_no_health arena400 arena600 randHalf
                  tapped tapped_reachable)).
Defined.

Lemma started_not_idle : phase (gs started) <> IDLE.
Proof. rewrite started_eq. discriminate. Qed.

Lemma waves_balls_and_speed_witness :
  reachable arena400 arena600 randHalf started /\
  phase (gs started) <> IDLE /\
  escalationLedger (gs started).
Proof.
  split; [exact started_reachable|]. split; [exact started_not_idle|].
  exact (reachable_waves_balls_and_speed arena400 arena600 randHalf started
           started_reachable started_not_idle).
Defined.

Lemma blocks_on_grid_witness :
  reachable arena400 arena600 randHalf tapped /\
  Forall (onGrid arena400) (blocks (gs tapped)).
Proof.
  split; [exact tapped_reachable|].
  exact (reachable_blocks_on_grid arena400 arena600 randHalf tapped
           tapped_reachable).
Defined.

(** A ball that has run past the left wall. *)
Definition ballPastLeftWall : Ball := mkBall 5 100 (-4.5) 0 "#ff1744" 13.

Lemma arena400_fits_a_ball : ball_radius ballPastLeftWall * 2 <= arena400.
Proof. unfold arena400; cbn. lra. Qed.

Lemma bounceWalls_keeps_ball_inside_witness :
  ball_radius ballPastLeftWall * 2 <= arena400 /\
  ball_radius ballPastLeftWall
    <= ball_x (bounceWalls arena400 ballPastLeftWall)
    <= arena400 - ball_radius ballPastLeftWall.
Proof.
  split; [exact arena400_fits_a_ball|].
  exact (proj1 (bounceWalls_keeps_ball_inside arena400 ballPastLeftWall
                  arena400_fits_a_ball)).
Defined.

Lemma initial_speed_positive : 0 < INITIAL_SPEED.
Proof. unfold INITIAL_SPEED. lra. Qed.

Lemma launched_ball_heads_down_witness :
  (forall i : nat, 0 <= randHalf i < 1) /\
  0 < INITIAL_SPEED /\
  INITIAL_SPEED * 0.49
    <= ball_vy (makeBall arena400 randHalf INITIAL_SPEED 0 0)
    <= INITIAL_SPEED.
Proof.
  split; [exact randHalf_range|]. split; [exact initial_speed_positive|].
  exact (proj1 (proj2 (proj2 (proj2
           (launched_ball_heads_down arena400 randHalf INITIAL_SPEED 0 0
              ballA randHalf_range initial_speed_positive))))).
Defined.

Lemma arena400_positive : 0 < arena400.
Proof. unfold arena400. lra. Qed.

Lemma placed_block_covers_the_tap_witness :
  0 < arena400 /\
  ~ tapRejected arena400 120 330 started /\
  exists blk : Block,
    blocks (gs tapped) = blocks (gs started) ++ [blk] /\
    blk_x blk <= 120 < blk_x blk + blk_w blk /\
    blk_y blk <= 330 < blk_y blk + blk_h blk.
Proof.
  split; [exact arena400_positive|]. split; [exact started_accepts_tap|].
  destruct (placed_block_covers_the_tap arena400 randHalf 120 330 started
              arena400_positive started_accepts_tap)
    as (blk & Hb & Hx & Hy & _).
  exists blk. split; [exact Hb|]. split; [exact Hx|exact Hy].
Defined.

Lemma hud_shows_energy_and_health_witness :
  reachable arena400 arena600 randHalf tapped /\
  List.length
    (filter (lit COLORS_energyActive)
       (renderPips (ui_energy (syncUI (gs tapped))) MAX_ENERGY
          COLORS_energyActive COLORS_energyInactive))
    = Z.to_nat (energy (gs tapped)).
Proof.
  split; [exact tapped_reachable|].
  exact (proj1 (proj2 (hud_shows_energy_and_health arena400 arena600 randHalf
                         tapped tapped_reachable))).
Defined.

Lemma block1_size_and_radius :
  0 <= blk_w block1 /\ 0 <= blk_h block1 /\ 0 < ball_radius ballB.
Proof. cbn. lra. Qed.

Lemma hit_needs_the_ball_within_a_radius_witness :
  0 <= blk_w block1 /\ 0 <= blk_h block1 /\ 0 < ball_radius ballB /\
  (hits ballB block1 = true ->
   blk_x block1 - ball_radius ballB < ball_x ballB
     < blk_x block1 + blk_w block1 + ball_radius ballB /\
   blk_y block1 - ball_radius ballB < ball_y ballB
     < blk_y block1 + blk_h block1 + ball_radius ballB).
Proof.
  destruct block1_size_and_radius as (Hw & Hh & Hr).
  split; [exact Hw|]. split; [exact Hh|]. split; [exact Hr|].
  exact (proj1 (hit_needs_the_ball_within_a_radius ballB block1 Hw Hh Hr)).
Defined.
